(** * Turbo custom elements: [<turbo-frame>] and [<turbo-stream>]

    A shallow embedding of [src/elements/frame_element.ts] and
    [src/elements/stream_element.ts].  Attributes are finite maps from
    attribute names to values, the external collaborators (the frame
    controller, the registry of stream actions, event listeners, the
    animation-frame scheduler) are explicit components of a world that the
    element's methods transform, and every observable effect (a controller
    call, a dispatched event, a handler invocation, a console message) is
    appended to a log.

    JavaScript runs the methods on one thread.  An async function runs
    synchronously up to its first [await]; what follows the [await] is a
    continuation that the host resumes later, at an animation frame or at a
    microtask checkpoint.  A promise is a position in a table of promise
    states.  Listeners run synchronously inside [dispatchEvent] and may call
    back into the element, so [render] takes a bound on the depth of such
    calls and answers [None] when the bound is exceeded. *)

From Stdlib Require Import Ascii String.
From stdpp Require Import base option list gmap strings.

(** JavaScript truthiness of a [string | null] value: [null] and the empty
    string are falsy. *)
Definition truthy (v : option string) : bool :=
  match v with
  | Some s => negb (String.eqb s EmptyString)
  | None => false
  end.

(** * The frame element *)

Module Frame.

(** State of a promise handed out by the controller. *)
Inductive PromiseState :=
| Pending
| Fulfilled (response : option string)
| Rejected (reason : string).

(** What reading [loaded] yields: the prototype getter answers
    [Promise.resolve(undefined)]; an own property installed by
    [Object.defineProperty] answers the recorded value, which is whatever
    the [n]-th call of [controller.visit] returned. *)
Inductive Loaded :=
| ResolvedUndefined
| VisitResult (n : nat).

(** Calls received by the [FrameController] owned by the element. *)
Inductive ControllerCall :=
| Connect
| Disconnect
| Visit (url : string)
| FormSubmissionIntercepted (element : string) (submitter : option string).

Record World := {
  attributes : gmap string string;            (* attributes of the frame element *)
  loaded_own : option Loaded;                 (* own data property "loaded", if defined *)
  ownerDocument : nat;                        (* identity of the node document *)
  document : nat;                             (* identity of the global [document] *)
  documentElement : gmap nat (gmap string string);
                                              (* attributes of each document's root element;
                                                 no entry when the document has no root *)
  calls : list ControllerCall;                (* controller calls, oldest first *)
  results : list PromiseState                 (* promises returned by [visit], by index *)
}.

Definition set_attributes (a : gmap string string) (w : World) : World :=
  {| attributes := a; loaded_own := loaded_own w; ownerDocument := ownerDocument w;
     document := document w; documentElement := documentElement w;
     calls := calls w; results := results w |}.

Definition set_loaded_own (l : option Loaded) (w : World) : World :=
  {| attributes := attributes w; loaded_own := l; ownerDocument := ownerDocument w;
     document := document w; documentElement := documentElement w;
     calls := calls w; results := results w |}.

Definition set_ownerDocument (d : nat) (w : World) : World :=
  {| attributes := attributes w; loaded_own := loaded_own w; ownerDocument := d;
     document := document w; documentElement := documentElement w;
     calls := calls w; results := results w |}.

Definition set_documentElement (r : gmap nat (gmap string string)) (w : World) : World :=
  {| attributes := attributes w; loaded_own := loaded_own w; ownerDocument := ownerDocument w;
     document := document w; documentElement := r;
     calls := calls w; results := results w |}.

Definition set_controller (c : list ControllerCall) (r : list PromiseState) (w : World) : World :=
  {| attributes := attributes w; loaded_own := loaded_own w; ownerDocument := ownerDocument w;
     document := document w; documentElement := documentElement w;
     calls := c; results := r |}.

(** [static get observedAttributes() { return ["src"] }] *)
Definition observedAttributes : list string := ["src"].

(** ** DOM attribute primitives *)

Definition getAttribute (name : string) (w : World) : option string :=
  attributes w !! name.

Definition hasAttribute (name : string) (w : World) : bool :=
  bool_decide (is_Some (attributes w !! name)).

(** ** The controller *)

(** Modelled from the spec: [FrameController] ([core/frames/frame_controller])
    is not among the sources; it is "an opaque controller exposing [connect],
    [disconnect], [visit(url)], [formSubmissionIntercepted(form, submitter?)]",
    with [visit(url: string) -> Promise<Response | absent>].  A call is
    recorded and answered with a new pending promise; the controller does
    not change the element's attributes while it is in [visit]. *)
Definition visit (url : string) (w : World) : World * Loaded :=
  (set_controller (calls w ++ [Visit url]) (results w ++ [Pending]) w,
   VisitResult (length (results w))).

(** The controller settles one of its promises, at a time of its choosing. *)
Definition settle (n : nat) (st : PromiseState) (w : World) : World :=
  set_controller (calls w) (<[n := st]> (results w)) w.

(** ** Getters *)

(** [get src() { return this.getAttribute("src") }] *)
Definition src (w : World) : option string := getAttribute "src" w.

(** [get isPreview()]: [undefined] (here [None]) when the optional chain
    breaks on a missing root element. *)
Definition isPreview (w : World) : option bool :=
  (λ root : gmap string string, bool_decide (is_Some (root !! "data-turbo-preview")))
    <$> (documentElement w !! ownerDocument w).

(** [get isActive() { return this.ownerDocument === document && !this.isPreview }] *)
Definition isActive (w : World) : bool :=
  bool_decide (ownerDocument w = document w) && negb (default false (isPreview w)).

(** [get loaded()]: the own property shadows the prototype getter. *)
Definition loaded (w : World) : Loaded :=
  default ResolvedUndefined (loaded_own w).

(** [get disabled()] and [get autoscroll()] *)
Definition disabled (w : World) : bool := hasAttribute "disabled" w.
Definition autoscroll (w : World) : bool := hasAttribute "autoscroll" w.

(** ** Reactions *)

(** [attributeChangedCallback()] *)
Definition attributeChangedCallback (w : World) : World :=
  if truthy (src w) && isActive w then
    match src w with
    | Some url =>
        let '(w', value) := visit url w in
        set_loaded_own (Some value) w'
    | None => w
    end
  else w.

(** The host runs the reaction after each change of an observed attribute. *)
Definition react (name : string) (w : World) : World :=
  if bool_decide (name ∈ observedAttributes) then attributeChangedCallback w else w.

(** [Element.setAttribute]: the reaction runs even when the value is the one
    already present. *)
Definition setAttribute (name value : string) (w : World) : World :=
  react name (set_attributes (<[name := value]> (attributes w)) w).

(** [Element.removeAttribute]: nothing happens, and no reaction runs, when the
    attribute is not there. *)
Definition removeAttribute (name : string) (w : World) : World :=
  match attributes w !! name with
  | Some _ => react name (set_attributes (delete name (attributes w)) w)
  | None => w
  end.

(** [set src(value: string | null)] *)
Definition set_src (value : option string) (w : World) : World :=
  if truthy value then
    match value with
    | Some v => setAttribute "src" v w
    | None => w
    end
  else removeAttribute "src" w.

(** [set disabled(value: boolean)] *)
Definition set_disabled (value : bool) (w : World) : World :=
  if value then setAttribute "disabled" EmptyString w else removeAttribute "disabled" w.

(** [set autoscroll(value: boolean)] *)
Definition set_autoscroll (value : bool) (w : World) : World :=
  if value then setAttribute "autoscroll" EmptyString w else removeAttribute "autoscroll" w.

(** [connectedCallback], [disconnectedCallback], [formSubmissionIntercepted] *)
Definition connectedCallback (w : World) : World :=
  set_controller (calls w ++ [Connect]) (results w) w.

Definition disconnectedCallback (w : World) : World :=
  set_controller (calls w ++ [Disconnect]) (results w) w.

Definition formSubmissionIntercepted (element : string) (submitter : option string)
    (w : World) : World :=
  set_controller (calls w ++ [FormSubmissionIntercepted element submitter]) (results w) w.

(** ** What the environment can do to a frame *)

Inductive Step :=
| SetAttribute (name value : string)
| RemoveAttribute (name : string)
| SetSrc (value : option string)
| SetDisabled (value : bool)
| SetAutoscroll (value : bool)
| SetRootAttribute (doc : nat) (name value : string)
| RemoveRootAttribute (doc : nat) (name : string)
| Adopt (doc : nat)
| Settle (n : nat) (st : PromiseState)
| Connected
| Disconnected.

Definition step (s : Step) (w : World) : World :=
  match s with
  | SetAttribute name value => setAttribute name value w
  | RemoveAttribute name => removeAttribute name w
  | SetSrc value => set_src value w
  | SetDisabled value => set_disabled value w
  | SetAutoscroll value => set_autoscroll value w
  | SetRootAttribute doc name value =>
      set_documentElement
        (alter (λ root : gmap string string, <[name := value]> root) doc (documentElement w)) w
  | RemoveRootAttribute doc name =>
      set_documentElement
        (alter (λ root : gmap string string, delete name root) doc (documentElement w)) w
  | Adopt doc => set_ownerDocument doc w
  | Settle n st => settle n st w
  | Connected => connectedCallback w
  | Disconnected => disconnectedCallback w
  end.

Definition run (ss : list Step) (w : World) : World :=
  foldl (λ w s, step s w) w ss.

(** The [visit] calls among the controller calls. *)
Definition visits (w : World) : list string :=
  omap (λ c, match c with Visit url => Some url | _ => None end) (calls w).

(** A step that changes the watched attribute. *)
Definition changes_src (s : Step) : bool :=
  match s with
  | SetAttribute name _ | RemoveAttribute name => bool_decide (name = "src")
  | SetSrc _ => true
  | _ => false
  end.

(** A step of the controller settling one of its promises. *)
Definition is_settle (s : Step) : bool :=
  match s with
  | Settle _ _ => true
  | _ => false
  end.

(** The own [loaded] property records the latest visit, if there was one. *)
Definition loaded_tracks_visits (w : World) : Prop :=
  length (results w) = length (visits w)
  ∧ loaded_own w =
      match length (visits w) with
      | 0 => None
      | S n => Some (VisitResult n)
      end.

(** A newly created frame: no own [loaded] property, and a controller that
    has received no call. *)
Definition createElement (attrs : gmap string string) (owner live : nat)
    (roots : gmap nat (gmap string string)) : World :=
  {| attributes := attrs; loaded_own := None; ownerDocument := owner;
     document := live; documentElement := roots; calls := []; results := [] |}.

(** A frame in the live document [0], whose root carries no marker. *)
Definition live_frame : World :=
  createElement ∅ 0 0 {[ 0 := ∅ ]}.

(** A frame in the live document [0], marked as a preview. *)
Definition preview_frame : World :=
  createElement ∅ 0 0 {[ 0 := {[ "data-turbo-preview" := EmptyString ]} ]}.

End Frame.

(** * The stream element *)

Module Stream.

(** An [Error] is represented by its message. *)
Definition Error := string.

Inductive result (A : Type) :=
| Ok (a : A)
| Raise (e : Error).
Arguments Ok {A} a.
Arguments Raise {A} e.

(** State of the promise of one activation of an async function; the
    functions of this element all resolve with [undefined]. *)
Inductive PromiseState :=
| Pending
| Fulfilled
| Rejected (reason : Error).

(** The first element child: a [<template>] with its content, or some other
    element. *)
Inductive Child :=
| Template (content : string)
| Other (tagName : string).

(** What the callback of a listener of [turbo:before-stream-render] does,
    step by step, among what bears on the element's methods: cancel the event
    with [event.preventDefault()], or call [event.target.render()]. *)
Inductive ListenerOp :=
| PreventDefault
| Render.

(** A listener registered on the path of the event, with its identity;
    [once] is the option of [addEventListener]. *)
Record Listener := {
  listener_id : nat;
  once : bool;
  callback : list ListenerOp
}.

(** Modelled from the spec: the entries of [StreamActions]
    ([core/streams/stream_actions] is not among the sources), a "mapping from
    action-name string to an executable mutation" with
    [Handler(element) -> void | throws], where the "handler reads
    target/template itself".  A handler is called with the element as [this],
    may read [targetElement], [templateElement] and [templateContent], and
    either returns or throws; it does not catch what the getters raise, and
    what it does to the rest of the page is left out. *)
Inductive Handler :=
| Return
| Throw (e : Error)
| ReadTargetElement (k : option string → Handler)
| ReadTemplateElement (k : string → Handler)
| ReadTemplateContent (k : string → Handler).

(** Observable effects.  A dispatch and a handler call carry the identity of
    the activation of [render] they belong to, which is that of its promise. *)
Inductive Effect :=
| BeforeStreamRender (activation : nat) (defaultPrevented : bool)
    (* a dispatch of turbo:before-stream-render has completed *)
| ActionInvoked (activation : nat) (action : string)
| ConsoleError (e : Error)
| RemoveCalled.

Record World := {
  (* the element *)
  attributes : gmap string string;
  firstElementChild : option Child;
  outerHTML : string;
  listeners : list Listener;
  renderPromise : option nat;
  isConnected : bool;
  (* the host *)
  remove_throws : bool;                 (* whether [this.remove()] throws *)
  ids : gset string;                    (* ids present in the owner document *)
  StreamActions : gmap string Handler;  (* the registry of actions *)
  promises : list PromiseState;         (* promise states, by identity *)
  frame_queue : list nat;               (* render activations suspended at
                                           [await nextAnimationFrame()] *)
  awaiting : list (nat * nat);          (* connectedCallback activations suspended
                                           at [await this.render()]: the awaited
                                           promise and the activation's own *)
  log : list Effect                     (* observable effects, oldest first *)
}.

Definition set_listeners (x : list Listener) (w : World) : World :=
  {| attributes := attributes w; firstElementChild := firstElementChild w;
     outerHTML := outerHTML w; listeners := x; renderPromise := renderPromise w;
     isConnected := isConnected w; remove_throws := remove_throws w; ids := ids w;
     StreamActions := StreamActions w; promises := promises w;
     frame_queue := frame_queue w; awaiting := awaiting w; log := log w |}.

Definition set_renderPromise (x : option nat) (w : World) : World :=
  {| attributes := attributes w; firstElementChild := firstElementChild w;
     outerHTML := outerHTML w; listeners := listeners w; renderPromise := x;
     isConnected := isConnected w; remove_throws := remove_throws w; ids := ids w;
     StreamActions := StreamActions w; promises := promises w;
     frame_queue := frame_queue w; awaiting := awaiting w; log := log w |}.

Definition set_isConnected (x : bool) (w : World) : World :=
  {| attributes := attributes w; firstElementChild := firstElementChild w;
     outerHTML := outerHTML w; listeners := listeners w; renderPromise := renderPromise w;
     isConnected := x; remove_throws := remove_throws w; ids := ids w;
     StreamActions := StreamActions w; promises := promises w;
     frame_queue := frame_queue w; awaiting := awaiting w; log := log w |}.

Definition set_promises (x : list PromiseState) (w : World) : World :=
  {| attributes := attributes w; firstElementChild := firstElementChild w;
     outerHTML := outerHTML w; listeners := listeners w; renderPromise := renderPromise w;
     isConnected := isConnected w; remove_throws := remove_throws w; ids := ids w;
     StreamActions := StreamActions w; promises := x;
     frame_queue := frame_queue w; awaiting := awaiting w; log := log w |}.

Definition set_frame_queue (x : list nat) (w : World) : World :=
  {| attributes := attributes w; firstElementChild := firstElementChild w;
     outerHTML := outerHTML w; listeners := listeners w; renderPromise := renderPromise w;
     isConnected := isConnected w; remove_throws := remove_throws w; ids := ids w;
     StreamActions := StreamActions w; promises := promises w;
     frame_queue := x; awaiting := awaiting w; log := log w |}.

Definition set_awaiting (x : list (nat * nat)) (w : World) : World :=
  {| attributes := attributes w; firstElementChild := firstElementChild w;
     outerHTML := outerHTML w; listeners := listeners w; renderPromise := renderPromise w;
     isConnected := isConnected w; remove_throws := remove_throws w; ids := ids w;
     StreamActions := StreamActions w; promises := promises w;
     frame_queue := frame_queue w; awaiting := x; log := log w |}.

Definition set_log (x : list Effect) (w : World) : World :=
  {| attributes := attributes w; firstElementChild := firstElementChild w;
     outerHTML := outerHTML w; listeners := listeners w; renderPromise := renderPromise w;
     isConnected := isConnected w; remove_throws := remove_throws w; ids := ids w;
     StreamActions := StreamActions w; promises := promises w;
     frame_queue := frame_queue w; awaiting := awaiting w; log := x |}.

Definition emit (e : Effect) (w : World) : World := set_log (log w ++ [e]) w.

(** A new pending promise; its identity is its index. *)
Definition new_promise (w : World) : World := set_promises (promises w ++ [Pending]) w.

Definition settle (p : nat) (st : PromiseState) (w : World) : World :=
  set_promises (<[p := st]> (promises w)) w.

(** A newly created element, attached to a document. *)
Definition createElement (attrs : gmap string string) (child : option Child)
    (html : string) (ls : list Listener) (actions : gmap string Handler)
    (doc_ids : gset string) (rm_throws : bool) : World :=
  {| attributes := attrs; firstElementChild := child; outerHTML := html;
     listeners := ls; renderPromise := None; isConnected := true;
     remove_throws := rm_throws; ids := doc_ids; StreamActions := actions;
     promises := []; frame_queue := []; awaiting := []; log := [] |}.

(** ** [description]: the first match of [/<[^>]+>/] in [outerHTML] *)

Definition is_gt (c : ascii) : bool := Ascii.eqb c ">"%char.
Definition is_lt (c : ascii) : bool := Ascii.eqb c "<"%char.

(** The longest prefix without [>], and what follows it. *)
Fixpoint span_not_gt (s : string) : string * string :=
  match s with
  | EmptyString => (EmptyString, EmptyString)
  | String c r =>
      if is_gt c then (EmptyString, s)
      else let '(a, b) := span_not_gt r in (String c a, b)
  end.

(** A match of [[^>]+>] at the head of [s]; the greedy run is the only
    candidate, as whatever follows a shorter run is not [>]. *)
Definition match_tag_body (s : string) : option string :=
  match span_not_gt s with
  | (String c a, String _ _) => Some (String c a +:+ ">")
  | _ => None
  end.

(** The leftmost match of [/<[^>]+>/]. *)
Fixpoint first_tag (s : string) : option string :=
  match s with
  | EmptyString => None
  | String c r =>
      if is_lt c then
        match match_tag_body r with
        | Some body => Some (String c body)
        | None => first_tag r
        end
      else first_tag r
  end.

(** [private get description()] *)
Definition description (w : World) : string :=
  default "<turbo-stream>" (first_tag (outerHTML w)).

(** [private raise(message: string): never] *)
Definition raise {A} (w : World) (message : string) : result A :=
  Raise (description w +:+ ": " +:+ message).

(** ** Getters *)

Definition getAttribute (name : string) (w : World) : option string :=
  attributes w !! name.

(** [get action()] and [get target()] *)
Definition action (w : World) : option string := getAttribute "action" w.
Definition target (w : World) : option string := getAttribute "target" w.

(** [get performAction()] *)
Definition performAction (w : World) : result Handler :=
  if truthy (action w) then
    match StreamActions w !! default EmptyString (action w) with
    | Some actionFunction => Ok actionFunction
    | None => raise w "unknown action"
    end
  else raise w "action attribute is missing".

(** [get targetElement()]: the element found by [getElementById], if any. *)
Definition targetElement (w : World) : result (option string) :=
  if truthy (target w) then
    let id := default EmptyString (target w) in
    Ok (if bool_decide (id ∈ ids w) then Some id else None)
  else raise w "target attribute is missing".

(** [get templateElement()] *)
Definition templateElement (w : World) : result string :=
  match firstElementChild w with
  | Some (Template content) => Ok content
  | _ => raise w "first child element must be a <template> element"
  end.

(** [get templateContent() { return this.templateElement.content }] *)
Definition templateContent (w : World) : result string :=
  templateElement w.

(** ** Calling an action *)

Fixpoint run_handler (h : Handler) (w : World) : result unit :=
  match h with
  | Return => Ok tt
  | Throw e => Raise e
  | ReadTargetElement k =>
      match targetElement w with
      | Ok t => run_handler (k t) w
      | Raise e => Raise e
      end
  | ReadTemplateElement k =>
      match templateElement w with
      | Ok t => run_handler (k t) w
      | Raise e => Raise e
      end
  | ReadTemplateContent k =>
      match templateContent w with
      | Ok t => run_handler (k t) w
      | Raise e => Raise e
      end
  end.

(** Whether the run of the handler on this element comes to read the
    template. *)
Fixpoint reads_template (h : Handler) (w : World) : bool :=
  match h with
  | Return | Throw _ => false
  | ReadTargetElement k =>
      match targetElement w with
      | Ok t => reads_template (k t) w
      | Raise _ => false
      end
  | ReadTemplateElement _ | ReadTemplateContent _ => true
  end.

(** ** Dispatching [turbo:before-stream-render] *)

(** Whether the listener is still among those of the element. *)
Definition registered (l : Listener) (w : World) : bool :=
  bool_decide (listener_id l ∈ listener_id <$> listeners w).

(** Takes the listener off the element. *)
Definition unregister (l : Listener) (w : World) : World :=
  set_listeners
    (filter (λ l', listener_id l' ≠ listener_id l) (listeners w)) w.

Section Dispatch.
(** What [event.target.render()] does when a listener calls it. *)
Variable render : World → option (World * nat).

(** Runs a callback; the flag is the event's [defaultPrevented]. *)
Fixpoint run_callback (ops : list ListenerOp) (defaultPrevented : bool) (w : World)
    : option (World * bool) :=
  match ops with
  | [] => Some (w, defaultPrevented)
  | PreventDefault :: ops' => run_callback ops' true w
  | Render :: ops' =>
      match render w with
      | Some (w', _) => run_callback ops' defaultPrevented w'
      | None => None
      end
  end.

(** The listeners are taken from a copy made when the dispatch starts; one
    that has been removed in the meantime is skipped, and a [once] listener
    is removed before its callback runs. *)
Fixpoint invoke_listeners (snapshot : list Listener) (defaultPrevented : bool)
    (w : World) : option (World * bool) :=
  match snapshot with
  | [] => Some (w, defaultPrevented)
  | l :: rest =>
      if registered l w then
        let w1 := if once l then unregister l w else w in
        match run_callback (callback l) defaultPrevented w1 with
        | Some (w2, d) => invoke_listeners rest d w2
        | None => None
        end
      else invoke_listeners rest defaultPrevented w
  end.

(** [this.dispatchEvent(this.beforeRenderEvent)]: a new cancelable event for
    each dispatch, here named after the activation [p] that creates it; the
    answer is [false] when a listener canceled it. *)
Definition dispatchEvent (p : nat) (w : World) : option (World * bool) :=
  match invoke_listeners (listeners w) false w with
  | Some (w', d) => Some (emit (BeforeStreamRender p d) w', negb d)
  | None => None
  end.
End Dispatch.

(** What the async arrow function of [render] does with the answer of the
    dispatch, up to its first suspension: suspend at
    [await nextAnimationFrame()], or complete at once. *)
Definition after_dispatch (p : nat) (proceed : bool) (w : World) : World :=
  if proceed then set_frame_queue (frame_queue w ++ [p]) w
  else settle p Fulfilled w.

(** [async render()].  The promise of the arrow function exists from the
    moment it is called, and is stored in [renderPromise] only once the
    function has run to its first suspension.  The promise of the async
    wrapper settles as the stored one does, and is identified with it.  The
    fuel bounds the depth of calls of [render] from listeners. *)
Fixpoint render (fuel : nat) (w : World) : option (World * nat) :=
  match renderPromise w with
  | Some p => Some (w, p)
  | None =>
      match fuel with
      | 0 => None
      | S fuel' =>
          let p := length (promises w) in
          match dispatchEvent (render fuel') p (new_promise w) with
          | Some (w1, proceed) =>
              Some (set_renderPromise (Some p) (after_dispatch p proceed w1), p)
          | None => None
          end
      end
  end.

(** ** After the animation frame *)

(** [this.performAction()]: the getter is read, and what it returns is called
    with the element as [this]. *)
Definition call_performAction (p : nat) (w : World) : World * result unit :=
  match performAction w with
  | Ok actionFunction =>
      let w1 := emit (ActionInvoked p (default EmptyString (action w))) w in
      (w1, run_handler actionFunction w1)
  | Raise e => (w, Raise e)
  end.

Definition outcome (r : result unit) : PromiseState :=
  match r with
  | Ok _ => Fulfilled
  | Raise e => Rejected e
  end.

(** The rest of the arrow function for the activation with promise [p]. *)
Definition resume_render (p : nat) (w : World) : World :=
  let '(w1, r) := call_performAction p w in settle p (outcome r) w1.

(** Modelled from the spec: [nextAnimationFrame] of [util] is not among the
    sources; to await it is to "suspend until the next animation/paint
    opportunity (a single frame-aligned yield)".  The next animation frame
    resumes the suspended activations in the order in which they suspended. *)
Definition animationFrame (w : World) : World :=
  foldl (λ w p, resume_render p w) (set_frame_queue [] w) (frame_queue w).

(** ** Attachment *)

(** [this.remove()] *)
Definition remove (w : World) : World * result unit :=
  let w1 := emit RemoveCalled w in
  if remove_throws w then (w1, Raise "remove failed")
  else (set_isConnected false w1, Ok tt).

(** [disconnect() { try { this.remove() } catch {} }] *)
Definition disconnect (w : World) : World := fst (remove w).

(** [async connectedCallback()] up to [await this.render()]. *)
Definition connectedCallback (fuel : nat) (w : World) : option World :=
  let own := length (promises w) in
  match render fuel (new_promise w) with
  | Some (w1, p) => Some (set_awaiting (awaiting w1 ++ [(p, own)]) w1)
  | None => None
  end.

(** The rest of [connectedCallback] once the awaited promise is settled:
    the [catch] and [finally] blocks. *)
Definition resume_connectedCallback (a : nat * nat) (w : World) : World :=
  match promises w !! a.1 with
  | Some Fulfilled => settle a.2 Fulfilled (disconnect w)
  | Some (Rejected error) => settle a.2 Fulfilled (disconnect (emit (ConsoleError error) w))
  | _ => set_awaiting (awaiting w ++ [a]) w
  end.

(** A microtask checkpoint: every activation whose awaited promise is settled
    is resumed; the others stay suspended. *)
Definition microtasks (w : World) : World :=
  foldl (λ w a, resume_connectedCallback a w) (set_awaiting [] w) (awaiting w).

(** ** Schedules *)

Inductive Step :=
| CallRender        (* some code calls [element.render()] *)
| AnimationFrame
| Microtasks.

Definition step (fuel : nat) (s : Step) (w : World) : option World :=
  match s with
  | CallRender => fst <$> render fuel w
  | AnimationFrame => Some (animationFrame w)
  | Microtasks => Some (microtasks w)
  end.

Fixpoint run (fuel : nat) (ss : list Step) (w : World) : option World :=
  match ss with
  | [] => Some w
  | s :: ss' =>
      match step fuel s w with
      | Some w' => run fuel ss' w'
      | None => None
      end
  end.

(** The host after an attachment: a microtask checkpoint, the animation
    frame, another checkpoint. *)
Definition run_to_completion (w : World) : World :=
  microtasks (animationFrame (microtasks w)).

(** ** Vocabulary for the statements *)

(** The parts of the world that no method of the element writes. *)
Definition same_element (w0 w : World) : Prop :=
  attributes w = attributes w0 ∧ firstElementChild w = firstElementChild w0
  ∧ outerHTML w = outerHTML w0 ∧ ids w = ids w0
  ∧ StreamActions w = StreamActions w0 ∧ remove_throws w = remove_throws w0.

Definition is_dispatch (e : Effect) : bool :=
  match e with
  | BeforeStreamRender _ _ => true
  | _ => false
  end.

Definition is_action (e : Effect) : bool :=
  match e with
  | ActionInvoked _ _ => true
  | _ => false
  end.

(** A dispatch that no listener canceled. *)
Definition is_uncanceled (e : Effect) : bool :=
  match e with
  | BeforeStreamRender _ false => true
  | _ => false
  end.

(** What the caller of [connectedCallback] leaves in the log: reports on the
    console and removals. *)
Definition is_cleanup (e : Effect) : bool :=
  match e with
  | ConsoleError _ | RemoveCalled => true
  | _ => false
  end.

Definition activation_of (e : Effect) : option nat :=
  match e with
  | BeforeStreamRender p _ | ActionInvoked p _ => Some p
  | _ => None
  end.

Definition not_rejected (st : PromiseState) : bool :=
  match st with
  | Rejected _ => false
  | _ => true
  end.

(** What the calls of [render] made by listeners, all with activations from
    [k] on, may have turned [w0] into: new promises, new suspended
    activations, fewer listeners, more dispatches, and nothing else. *)
Definition reentered (k : nat) (w0 w : World) : Prop :=
  same_element w0 w
  ∧ isConnected w = isConnected w0
  ∧ awaiting w = awaiting w0
  ∧ k ≤ length (promises w)
  ∧ (∀ i, i < k → promises w !! i = promises w0 !! i)
  ∧ (∃ q, frame_queue w = frame_queue w0 ++ q ∧ Forall (λ i, k ≤ i) q)
  ∧ (∃ l, log w = log w0 ++ l
          ∧ Forall (λ e, is_dispatch e = true ∧ ∃ i, activation_of e = Some i ∧ k ≤ i) l)
  ∧ (Forall (λ st, not_rejected st = true) (promises w0) →
     Forall (λ st, not_rejected st = true) (promises w)).

(** Each suspended activation comes from a dispatch that was not canceled. *)
Definition queue_matches_log (w : World) : Prop :=
  length (frame_queue w) = length (List.filter is_uncanceled (log w)).

(** What [this.performAction()] comes to on this element: the getter's error,
    or what the registered handler does. *)
Definition action_result (w : World) : result unit :=
  match performAction w with
  | Ok actionFunction => run_handler actionFunction w
  | Raise e => Raise e
  end.

(** The handler calls logged when the activations [q] are resumed. *)
Definition action_calls (w : World) (q : list nat) : list Effect :=
  match performAction w with
  | Ok _ => (λ p, ActionInvoked p (default EmptyString (action w))) <$> q
  | Raise _ => []
  end.

Definition settle_all (q : list nat) (st : PromiseState) (ps : list PromiseState)
    : list PromiseState :=
  foldl (λ ps p, <[p := st]> ps) ps q.

(** Effects other than a console report or a handler call by activation 1. *)
Definition is_silent (e : Effect) : bool :=
  match e with
  | ConsoleError _ => false
  | ActionInvoked 1 _ => false
  | _ => true
  end.

(** The state of an attached element whose render, the activation 1 awaited
    by [connectedCallback] (activation 0), completed on a canceled dispatch;
    [resumed] tells whether [connectedCallback] has gone on past its await. *)
Definition canceled_state (rm_throws resumed : bool) (w : World) : Prop :=
  renderPromise w = Some 1
  ∧ promises w !! 1 = Some Fulfilled
  ∧ Forall (λ i, 2 ≤ i) (frame_queue w)
  ∧ remove_throws w = rm_throws
  ∧ Forall (λ e, is_silent e = true) (log w)
  ∧ if resumed
    then awaiting w = [] ∧ List.filter is_cleanup (log w) = [RemoveCalled]
         ∧ promises w !! 0 = Some Fulfilled ∧ isConnected w = rm_throws
    else awaiting w = [(1, 0)] ∧ List.filter is_cleanup (log w) = []
         ∧ isConnected w = true.


(** No activation is suspended and no handler was called. *)
Definition idle_state (w : World) : Prop :=
  frame_queue w = [] ∧ Forall (λ e, is_action e = false) (log w).

Definition is_microtasks (s : Step) : bool :=
  match s with
  | Microtasks => true
  | _ => false
  end.

(** Dispatches and suspended activations agree: a suspended activation has
    an uncanceled dispatch, the activations named in the log have their
    promise, and no activation has both a canceled and an uncanceled
    dispatch. *)
Definition dispatches_consistent (w : World) : Prop :=
  (∀ p, p ∈ frame_queue w → BeforeStreamRender p false ∈ log w)
  ∧ (∀ e i, e ∈ log w → activation_of e = Some i → i < length (promises w))
  ∧ (∀ p, BeforeStreamRender p true ∈ log w → BeforeStreamRender p false ∉ log w).

(** The state of an element some time after its first render has returned,
    [ds] being the dispatches logged by then: only activations with an
    uncanceled dispatch are suspended or have called the handler. *)
Definition rendered_state (ds : list Effect) (w : World) : Prop :=
  renderPromise w ≠ None
  ∧ List.filter is_dispatch (log w) = ds
  ∧ (∀ p, p ∈ frame_queue w → BeforeStreamRender p false ∈ ds)
  ∧ (∀ p a, ActionInvoked p a ∈ log w → BeforeStreamRender p false ∈ ds).

(** A listener that does not call [render]. *)
Definition non_reentrant (l : Listener) : Prop := Render ∉ callback l.

(** A listener that cancels the event. *)
Definition cancels (l : Listener) : Prop := PreventDefault ∈ callback l.

(** A listener that calls [render] only if it is registered once: one that
    is not calls [render] again from every dispatch it causes, without end. *)
Definition once_if_reentrant (l : Listener) : Prop :=
  non_reentrant l ∨ once l = true.

Global Instance ListenerOp_eq_dec : EqDecision ListenerOp.
Proof. solve_decision. Defined.

Global Instance non_reentrant_dec l : Decision (non_reentrant l).
Proof. unfold non_reentrant. apply _. Defined.

Global Instance cancels_dec l : Decision (cancels l).
Proof. unfold cancels. apply _. Defined.

(** The message of the error for a first child that is no template. *)
Definition template_error (w : World) : Error :=
  description w +:+ ": " +:+ "first child element must be a <template> element".

(** Action resolution as a reader may take it from the wording "absent /
    present but not in the registry / otherwise": decided by the presence of
    the attribute alone. *)
Definition resolves_by_presence (w : World) : Prop :=
  (action w = None →
     performAction w = Raise (description w +:+ ": " +:+ "action attribute is missing"))
  ∧ (∀ a, action w = Some a → StreamActions w !! a = None →
       performAction w = Raise (description w +:+ ": " +:+ "unknown action"))
  ∧ (∀ a h, action w = Some a → StreamActions w !! a = Some h →
       performAction w = Ok h).

(** ** Sample elements *)

(** Handlers in the manner of [append] and [remove]: the first reads the
    target and the template, the second the target only. *)
Definition append_action : Handler :=
  ReadTargetElement (λ _, ReadTemplateContent (λ _, Return)).

Definition remove_action : Handler :=
  ReadTargetElement (λ _, Return).

Definition sample_actions : gmap string Handler :=
  {[ "append" := append_action; "remove" := remove_action ]}.

(** An attribute value between double quotes, as serialized. *)
Definition quoted (s : string) : string :=
  String (ascii_of_nat 34) s +:+ String (ascii_of_nat 34) EmptyString.

(** The serialization of
    [<turbo-stream action=append target=messages><template>Hi</template></turbo-stream>]. *)
Definition sample_html : string :=
  "<turbo-stream action=" +:+ quoted "append" +:+ " target=" +:+ quoted "messages"
    +:+ "><template>Hi</template></turbo-stream>".

Definition sample_attributes : gmap string string :=
  {[ "action" := "append"; "target" := "messages" ]}.

(** A listener registered with [{ once: true }] that calls
    [event.target.render()]. *)
Definition rendering_listener : Listener :=
  {| listener_id := 0; once := true; callback := [Render] |}.

(** A listener that cancels the event. *)
Definition canceling_listener : Listener :=
  {| listener_id := 0; once := false; callback := [PreventDefault] |}.

Definition sample_element (ls : list Listener) : World :=
  createElement sample_attributes (Some (Template "Hi")) sample_html ls
    sample_actions {[ "messages" ]} false.

(** [<turbo-stream action>], with the attribute present and empty. *)
Definition empty_action_element : World :=
  createElement {[ "action" := EmptyString ]} (Some (Template "Hi"))
    ("<turbo-stream action=" +:+ quoted EmptyString
       +:+ "><template>Hi</template></turbo-stream>")
    [] sample_actions ∅ false.

(** A stream element whose first child is a [<div>]. *)
Definition div_child_element (ls : list Listener) : World :=
  createElement sample_attributes (Some (Other "div")) sample_html ls
    sample_actions {[ "messages" ]} false.

End Stream.

(** * Further vocabulary *)

Module FrameEvents.
Import Frame.

(** What reaches a frame: a step of the environment, or the notice that a
    form submission inside the frame was intercepted. *)
Inductive Event :=
| Host (s : Step)
| FormSubmission (element : string) (submitter : option string).

Definition handle (e : Event) (w : World) : World :=
  match e with
  | Host s => step s w
  | FormSubmission element submitter => formSubmissionIntercepted element submitter w
  end.

Definition handle_all (es : list Event) (w : World) : World :=
  foldl (λ w e, handle e w) w es.

(** The controller call that an event is passed on as, for the events that
    are passed on as they come. *)
Definition forwarded (e : Event) : option ControllerCall :=
  match e with
  | Host Connected => Some Connect
  | Host Disconnected => Some Disconnect
  | FormSubmission element submitter => Some (FormSubmissionIntercepted element submitter)
  | Host _ => None
  end.

(** The controller calls other than [visit]. *)
Definition delegated (w : World) : list ControllerCall :=
  omap (λ c, match c with Visit _ => None | _ => Some c end) (calls w).

End FrameEvents.

Module StreamTerms.
Import Stream.

(** Whether [>] occurs in the string. *)
Fixpoint has_gt (s : string) : bool :=
  match s with
  | EmptyString => false
  | String c r => is_gt c || has_gt r
  end.

(** A tag as [/<[^>]+>/] matches it, with its non-empty body without [>]. *)
Definition tag_of (body : string) : string := "<" +:+ body +:+ ">".

(** The string holds a match of [/<[^>]+>/]. *)
Definition holds_tag (s : string) : Prop :=
  ∃ pre body post,
    body ≠ EmptyString ∧ has_gt body = false ∧ s = pre +:+ tag_of body +:+ post.

(** The state of an element on which [render] was called and that no
    [connectedCallback] is waiting on: still in the document, with nothing
    reported and no removal. *)
Definition unattached_state (w : World) : Prop :=
  awaiting w = [] ∧ renderPromise w ≠ None ∧ isConnected w = true
  ∧ List.filter is_cleanup (log w) = [].

(** Handler calls made and activations still suspended number at most [n]. *)
Definition acts_bounded (n : nat) (w : World) : Prop :=
  renderPromise w ≠ None
  ∧ length (List.filter is_action (log w)) + length (frame_queue w) ≤ n.

(** What the log of an attachment holds after the dispatch, when the
    dispatch was not canceled: the handler call, if the getter found a
    handler, and the report of the error, if there was one. *)
Definition action_trace (w : World) : list Effect :=
  match performAction w with
  | Ok actionFunction =>
      ActionInvoked 1 (default EmptyString (action w))
      :: match run_handler actionFunction w with
         | Ok _ => []
         | Raise e => [ConsoleError e]
         end
  | Raise e => [ConsoleError e]
  end.

(** A listener registered with [{ once: true }] that cancels the event and
    then calls [event.target.render()]. *)
Definition canceling_rendering_listener : Listener :=
  {| listener_id := 0; once := true; callback := [PreventDefault; Render] |}.

(** A stream element that was attached and whose render was rejected, the
    first child being no template. *)
Definition rejected_element : World :=
  default (div_child_element [])
    (run_to_completion <$> connectedCallback 1 (div_child_element [])).

End StreamTerms.

(** * Properties of the frame element *)

Module FrameProps.
Import Frame.

Lemma truthy_Some s : truthy (Some s) = true ↔ s ≠ EmptyString.
Proof.
  unfold truthy. destruct (String.eqb_spec s EmptyString); simpl; split; intros; congruence.
Qed.

Lemma src_observed : bool_decide ("src" ∈ observedAttributes) = true.
Proof. apply bool_decide_eq_true. unfold observedAttributes. by apply list_elem_of_singleton. Qed.

Lemma react_not_observed name w : name ≠ "src" → react name w = w.
Proof.
  intros Hne. unfold react. rewrite bool_decide_eq_false_2; [done|].
  unfold observedAttributes. by rewrite list_elem_of_singleton.
Qed.

(** The reaction never touches the attributes or the documents. *)
Lemma attributeChangedCallback_attributes w :
  attributes (attributeChangedCallback w) = attributes w.
Proof.
  unfold attributeChangedCallback.
  destruct (truthy (src w) && isActive w); [|done]. by destruct (src w).
Qed.

Lemma react_attributes name w : attributes (react name w) = attributes w.
Proof.
  unfold react. case_bool_decide; [apply attributeChangedCallback_attributes | done].
Qed.

Lemma setAttribute_attributes name value w :
  attributes (setAttribute name value w) = <[name := value]> (attributes w).
Proof. unfold setAttribute. by rewrite react_attributes. Qed.

Lemma removeAttribute_attributes name w :
  attributes (removeAttribute name w) = delete name (attributes w).
Proof.
  unfold removeAttribute. destruct (attributes w !! name) eqn:E.
  - by rewrite react_attributes.
  - by rewrite delete_id.
Qed.

(** What the reaction does, case by case. *)
Lemma attributeChangedCallback_accepted w url :
  src w = Some url → url ≠ EmptyString → isActive w = true →
  attributeChangedCallback w =
    set_loaded_own (Some (VisitResult (length (results w))))
      (set_controller (calls w ++ [Visit url]) (results w ++ [Pending]) w).
Proof.
  intros Hsrc Hne Hact. unfold attributeChangedCallback.
  rewrite Hsrc, Hact. by rewrite (proj2 (truthy_Some url) Hne).
Qed.

Lemma attributeChangedCallback_ignored w :
  truthy (src w) = false ∨ isActive w = false → attributeChangedCallback w = w.
Proof.
  intros H. unfold attributeChangedCallback.
  destruct H as [H | H]; rewrite H; [done|]. by rewrite andb_false_r.
Qed.

(** Reading [isActive] in terms of the documents. *)
Lemma isActive_spec w :
  isActive w = true ↔
  ownerDocument w = document w ∧
  ∀ root, documentElement w !! ownerDocument w = Some root →
          root !! "data-turbo-preview" = None.
Proof.
  unfold isActive, isPreview. rewrite andb_true_iff, bool_decide_eq_true, negb_true_iff.
  apply and_iff_compat_l.
  destruct (documentElement w !! ownerDocument w) as [root|]; simpl.
  - rewrite bool_decide_eq_false. split.
    + intros Hn r [= <-]. destruct (root !! "data-turbo-preview") eqn:E; [|done].
      destruct Hn. eauto.
    + intros H [x Hx]. specialize (H _ eq_refl). congruence.
  - split; [intros _ r; discriminate | done].
Qed.

(** What a change of [src] to [value] does. *)
Lemma setAttribute_src_accepted w value :
  value ≠ EmptyString → isActive w = true →
  setAttribute "src" value w =
    set_loaded_own (Some (VisitResult (length (results w))))
      (set_controller (calls w ++ [Visit value]) (results w ++ [Pending])
         (set_attributes (<["src" := value]> (attributes w)) w)).
Proof.
  intros Hne Hact. unfold setAttribute, react. rewrite src_observed.
  rewrite (attributeChangedCallback_accepted _ value); [done | | done | done].
  unfold src, getAttribute. simpl. apply lookup_insert_eq.
Qed.

Lemma setAttribute_src_ignored w value :
  ¬ (value ≠ EmptyString ∧ isActive w = true) →
  setAttribute "src" value w = set_attributes (<["src" := value]> (attributes w)) w.
Proof.
  intros Hn. unfold setAttribute, react. rewrite src_observed.
  apply attributeChangedCallback_ignored.
  destruct (isActive w) eqn:Hact; [left | by right].
  unfold src, getAttribute. simpl. rewrite lookup_insert_eq.
  destruct (truthy (Some value)) eqn:E; [|done].
  apply truthy_Some in E. destruct Hn. done.
Qed.

Lemma removeAttribute_src w :
  removeAttribute "src" w = set_attributes (delete "src" (attributes w)) w.
Proof.
  unfold removeAttribute. destruct (attributes w !! "src") eqn:E.
  - unfold react. rewrite src_observed. apply attributeChangedCallback_ignored.
    left. unfold src, getAttribute. simpl. by rewrite lookup_delete_eq.
  - rewrite delete_id by done. by destruct w.
Qed.

Lemma setAttribute_other name value w :
  name ≠ "src" →
  setAttribute name value w = set_attributes (<[name := value]> (attributes w)) w.
Proof. intros. unfold setAttribute. by rewrite react_not_observed. Qed.

Lemma removeAttribute_other name w :
  name ≠ "src" →
  removeAttribute name w = set_attributes (delete name (attributes w)) w.
Proof.
  intros. unfold removeAttribute. destruct (attributes w !! name) eqn:E.
  - by rewrite react_not_observed.
  - rewrite delete_id by done. by destruct w.
Qed.

(** A step that does not change [src] reaches the controller with no visit. *)
Lemma step_without_src_change s w :
  changes_src s = false → visits (step s w) = visits w.
Proof.
  destruct s; simpl; intros Hs; try done.
  - apply bool_decide_eq_false in Hs. by rewrite setAttribute_other.
  - apply bool_decide_eq_false in Hs. by rewrite removeAttribute_other.
  - destruct value; simpl.
    + by rewrite setAttribute_other.
    + by rewrite removeAttribute_other.
  - destruct value; simpl.
    + by rewrite setAttribute_other.
    + by rewrite removeAttribute_other.
  - unfold visits. simpl. rewrite omap_app. simpl. by rewrite app_nil_r.
  - unfold visits. simpl. rewrite omap_app. simpl. by rewrite app_nil_r.
Qed.

Lemma run_without_src_change ss w :
  Forall (λ s, changes_src s = false) ss → visits (run ss w) = visits w.
Proof.
  unfold run. revert w. induction ss as [|s ss IH]; intros w Hs; [done|].
  inversion Hs; subst. simpl. rewrite IH by done. by apply step_without_src_change.
Qed.

(** C2.  A change of the watched [src] attribute to [value] calls
    [controller.visit value] exactly when [value] is not empty and [isActive]
    holds at that moment, that is, when the owner document is the live
    document and its root carries no preview marker; it calls it once.  A
    removal of [src] calls nothing.  A change that is not forwarded leaves
    nothing behind but the attribute itself, and no later step other than a
    new change of [src] makes the controller visit. *)
Theorem src_change_forwarded_iff_active (w : World) (value : string) :
  let w' := setAttribute "src" value w in
  visits w' = visits w ++
    (if bool_decide (value ≠ EmptyString ∧ isActive w = true) then [value] else [])
  ∧ visits (removeAttribute "src" w) = visits w
  ∧ (isActive w = true ↔
       ownerDocument w = document w ∧
       ∀ root, documentElement w !! ownerDocument w = Some root →
               root !! "data-turbo-preview" = None)
  ∧ (¬ (value ≠ EmptyString ∧ isActive w = true) →
       w' = set_attributes (<["src" := value]> (attributes w)) w
       ∧ ∀ ss, Forall (λ s, changes_src s = false) ss → visits (run ss w') = visits w).
Proof.
  simpl. split_and!.
  - case_bool_decide as H.
    + destruct H as [Hne Hact]. rewrite setAttribute_src_accepted by done.
      unfold visits. simpl. by rewrite omap_app.
    + rewrite setAttribute_src_ignored by done. by rewrite app_nil_r.
  - by rewrite removeAttribute_src.
  - apply isActive_spec.
  - intros Hn. rewrite setAttribute_src_ignored by done. split; [done|].
    intros ss Hss. by rewrite run_without_src_change.
Qed.

Lemma src_change_forwarded_iff_active_witness :
  visits (setAttribute "src" "/inbox" live_frame) = ["/inbox"]
  ∧ visits (setAttribute "src" "/inbox" preview_frame) = [].
Proof.
  split.
  - apply (src_change_forwarded_iff_active live_frame "/inbox").
  - apply (src_change_forwarded_iff_active preview_frame "/inbox").
Defined.

(** The activation gate on a preview document: the change of [src] is not
    forwarded, taking the marker away forwards nothing, and setting the same
    value again while live is forwarded once. *)
Lemma activation_gate :
  let w1 := step (SetAttribute "src" "/inbox") preview_frame in
  let w2 := step (RemoveRootAttribute 0 "data-turbo-preview") w1 in
  let w3 := step (SetAttribute "src" "/inbox") w2 in
  calls w1 = [] ∧ calls w2 = [] ∧ calls w3 = [Visit "/inbox"].
Proof. vm_compute. done. Qed.

(** A boolean property backed by the attribute [name]. *)
Lemma boolean_attribute name (w : World) (value : bool) :
  name ≠ "src" →
  let set_prop (v : bool) w :=
    if v then setAttribute name EmptyString w else removeAttribute name w in
  (hasAttribute name w = true ↔ is_Some (attributes w !! name))
  ∧ set_prop true w = set_attributes (<[name := EmptyString]> (attributes w)) w
  ∧ set_prop false w = set_attributes (delete name (attributes w)) w
  ∧ attributes (set_prop true w) !! name = Some EmptyString
  ∧ attributes (set_prop false w) !! name = None
  ∧ hasAttribute name (set_prop value w) = value.
Proof.
  intros Hne. simpl. unfold hasAttribute.
  rewrite setAttribute_other, removeAttribute_other by done. split_and!.
  - apply bool_decide_eq_true.
  - done.
  - done.
  - simpl. apply lookup_insert_eq.
  - simpl. apply lookup_delete_eq.
  - destruct value.
    + simpl. rewrite lookup_insert_eq. by apply bool_decide_eq_true.
    + simpl. rewrite lookup_delete_eq. apply bool_decide_eq_false. by intros [].
Qed.

(** C6.  [disabled] and [autoscroll] read the presence of the attribute of
    the same name; setting [true] writes the attribute with the empty value,
    setting [false] deletes it, nothing else of the element changes, and a
    read after a write gives back what was written. *)
Theorem boolean_properties_mirror_attribute_presence (w : World) (value : bool) :
  ((disabled w = true ↔ is_Some (attributes w !! "disabled"))
   ∧ set_disabled true w =
       set_attributes (<["disabled" := EmptyString]> (attributes w)) w
   ∧ set_disabled false w = set_attributes (delete "disabled" (attributes w)) w
   ∧ attributes (set_disabled true w) !! "disabled" = Some EmptyString
   ∧ attributes (set_disabled false w) !! "disabled" = None
   ∧ disabled (set_disabled value w) = value)
  ∧
  ((autoscroll w = true ↔ is_Some (attributes w !! "autoscroll"))
   ∧ set_autoscroll true w =
       set_attributes (<["autoscroll" := EmptyString]> (attributes w)) w
   ∧ set_autoscroll false w = set_attributes (delete "autoscroll" (attributes w)) w
   ∧ attributes (set_autoscroll true w) !! "autoscroll" = Some EmptyString
   ∧ attributes (set_autoscroll false w) !! "autoscroll" = None
   ∧ autoscroll (set_autoscroll value w) = value).
Proof.
  split.
  - apply (boolean_attribute "disabled" w value). done.
  - apply (boolean_attribute "autoscroll" w value). done.
Qed.

(** C10.  Assigning a non-empty string to the [src] property writes it to the
    attribute; assigning [null] or the empty string deletes the attribute,
    and [src] then reads as absent. *)
Theorem src_setter (w : World) (value : string) :
  (value ≠ EmptyString →
     attributes (set_src (Some value) w) !! "src" = Some value
     ∧ src (set_src (Some value) w) = Some value)
  ∧ attributes (set_src None w) !! "src" = None
  ∧ src (set_src None w) = None
  ∧ attributes (set_src (Some EmptyString) w) !! "src" = None
  ∧ src (set_src (Some EmptyString) w) = None.
Proof.
  unfold src, getAttribute, set_src. split_and!.
  - intros Hne. rewrite (proj2 (truthy_Some value) Hne).
    rewrite setAttribute_attributes. by rewrite lookup_insert_eq.
  - simpl. rewrite removeAttribute_attributes. apply lookup_delete_eq.
  - simpl. rewrite removeAttribute_attributes. apply lookup_delete_eq.
  - simpl. rewrite removeAttribute_attributes. apply lookup_delete_eq.
  - simpl. rewrite removeAttribute_attributes. apply lookup_delete_eq.
Qed.

Lemma src_setter_witness :
  "/inbox" ≠ EmptyString ∧ src (set_src (Some "/inbox") live_frame) = Some "/inbox".
Proof.
  split; [done|]. apply (src_setter live_frame "/inbox"). done.
Defined.

Lemma attributeChangedCallback_tracks w :
  loaded_tracks_visits w → loaded_tracks_visits (attributeChangedCallback w).
Proof.
  intros [Hlen Hown]. unfold attributeChangedCallback.
  destruct (truthy (src w) && isActive w); [|done].
  destruct (src w) as [url|]; [|done].
  unfold loaded_tracks_visits, visits in *. simpl.
  rewrite omap_app, !length_app. simpl. split; [lia|].
  rewrite Nat.add_1_r. by rewrite Hlen.
Qed.

Lemma react_tracks name w :
  loaded_tracks_visits w → loaded_tracks_visits (react name w).
Proof.
  intros. unfold react. case_bool_decide; [by apply attributeChangedCallback_tracks | done].
Qed.

Lemma setAttribute_tracks name value w :
  loaded_tracks_visits w → loaded_tracks_visits (setAttribute name value w).
Proof. intros. by apply react_tracks. Qed.

Lemma removeAttribute_tracks name w :
  loaded_tracks_visits w → loaded_tracks_visits (removeAttribute name w).
Proof.
  intros. unfold removeAttribute. destruct (attributes w !! name); [|done].
  by apply react_tracks.
Qed.

Lemma step_tracks s w :
  loaded_tracks_visits w → loaded_tracks_visits (step s w).
Proof.
  intros H. destruct s; simpl.
  - by apply setAttribute_tracks.
  - by apply removeAttribute_tracks.
  - unfold set_src. destruct (truthy value).
    + destruct value; [by apply setAttribute_tracks | done].
    + by apply removeAttribute_tracks.
  - destruct value; [by apply setAttribute_tracks | by apply removeAttribute_tracks].
  - destruct value; [by apply setAttribute_tracks | by apply removeAttribute_tracks].
  - done.
  - done.
  - done.
  - destruct H as [Hlen Hown]. unfold loaded_tracks_visits, visits in *. simpl.
    by rewrite length_insert.
  - destruct H as [Hlen Hown]. unfold loaded_tracks_visits, visits in *. simpl.
    rewrite omap_app. simpl. by rewrite app_nil_r.
  - destruct H as [Hlen Hown]. unfold loaded_tracks_visits, visits in *. simpl.
    rewrite omap_app. simpl. by rewrite app_nil_r.
Qed.

Lemma run_tracks ss w :
  loaded_tracks_visits w → loaded_tracks_visits (run ss w).
Proof.
  unfold run. revert w. induction ss as [|s ss IH]; intros w H; [done|].
  simpl. apply IH. by apply step_tracks.
Qed.

(** Settling promises changes their states and nothing else. *)
Lemma run_settles ss w :
  Forall (λ s, is_settle s = true) ss →
  ∃ r, length r = length (results w) ∧ run ss w = set_controller (calls w) r w.
Proof.
  unfold run. revert w. induction ss as [|s ss IH]; intros w Hs.
  - exists (results w). split; [done|]. by destruct w.
  - inversion Hs as [|? ? Hsettle Hrest]; subst. destruct s; try discriminate.
    simpl. destruct (IH (settle n st w) Hrest) as (r & Hlen & ->).
    exists r. split; [|done]. simpl in Hlen. by rewrite length_insert in Hlen.
Qed.

(** C7.  On a frame created and then driven by any steps: as long as the
    controller was never asked to visit, [loaded] is the resolved empty
    promise.  An accepted change of [src] makes [loaded] the promise returned
    by the call of [visit] it caused.  When a second change is accepted
    later, [loaded] is the promise returned by the second call, a promise
    other than the first, whichever promises the controller settles in
    between or afterwards. *)
Theorem loaded_is_latest_visit_result
    (attrs : gmap string string) (owner live : nat)
    (roots : gmap nat (gmap string string)) (ss : list Step) :
  let w := run ss (createElement attrs owner live roots) in
  (visits w = [] → loaded w = ResolvedUndefined)
  ∧ ∀ v1, v1 ≠ EmptyString → isActive w = true →
      let w1 := setAttribute "src" v1 w in
      calls w1 = calls w ++ [Visit v1]
      ∧ loaded w1 = (visit v1 (set_attributes (<["src" := v1]> (attributes w)) w)).2
      ∧ ∀ settles1 v2 settles2,
          Forall (λ s, is_settle s = true) settles1 →
          Forall (λ s, is_settle s = true) settles2 →
          v2 ≠ EmptyString →
          let w1' := run settles1 w1 in
          let w2 := setAttribute "src" v2 w1' in
          let w2' := run settles2 w2 in
          calls w2' = calls w ++ [Visit v1; Visit v2]
          ∧ loaded w2' =
              (visit v2 (set_attributes (<["src" := v2]> (attributes w1')) w1')).2
          ∧ loaded w2' ≠ loaded w1.
Proof.
  simpl. split.
  - intros Hv.
    assert (loaded_tracks_visits (run ss (createElement attrs owner live roots)))
      as [_ Hown] by (by apply run_tracks).
    unfold loaded. rewrite Hown, Hv. done.
  - set (w := run ss _). intros v1 Hv1 Hact.
    rewrite (setAttribute_src_accepted w v1) by done.
    split_and!; [done | done |].
    set (w1 := set_loaded_own _ _).
    intros settles1 v2 settles2 Hs1 Hs2 Hv2.
    destruct (run_settles settles1 w1 Hs1) as (r1 & Hr1 & ->).
    set (w1' := set_controller _ r1 w1).
    assert (isActive w1' = true) as Hact' by exact Hact.
    rewrite (setAttribute_src_accepted w1' v2) by done.
    set (w2 := set_loaded_own _ _).
    destruct (run_settles settles2 w2 Hs2) as (r2 & Hr2 & ->).
    unfold loaded. simpl. split_and!.
    + by rewrite <- app_assoc.
    + done.
    + rewrite Hr1. simpl. rewrite length_app. simpl. intros [= H]. lia.
Qed.

Lemma loaded_is_latest_visit_result_witness :
  let w := run [] (createElement ∅ 0 0 {[ 0 := ∅ ]}) in
  loaded w = ResolvedUndefined
  ∧ loaded (run [Settle 0 (Fulfilled None)]
              (setAttribute "src" "/b" (run [] (setAttribute "src" "/a" w))))
    = VisitResult 1.
Proof.
  pose proof (loaded_is_latest_visit_result ∅ 0 0 {[ 0 := ∅ ]} []) as [H0 H].
  split; [by apply H0|].
  assert ("/a" ≠ EmptyString) as Ha by done.
  assert (isActive (run [] (createElement ∅ 0 0 {[ 0 := ∅ ]})) = true) as Hact
    by (vm_compute; reflexivity).
  destruct (H "/a" Ha Hact) as (_ & _ & H2).
  assert ("/b" ≠ EmptyString) as Hb by done.
  destruct (H2 [] "/b" [Settle 0 (Fulfilled None)]) as (_ & Hl & _).
  - constructor.
  - repeat constructor.
  - exact Hb.
  - exact Hl.
Defined.

End FrameProps.

(** * Properties of the stream element *)

Module StreamProps.
Import Stream.

(** ** The shape of [render] *)

Lemma render_cached fuel w p :
  renderPromise w = Some p → render fuel w = Some (w, p).
Proof. intros H. destruct fuel; simpl; by rewrite H. Qed.

(** A call that finds no stored promise allocates one, runs the listeners,
    records the dispatch, suspends or completes, and stores the promise. *)
Lemma render_inv fuel w w' p :
  renderPromise w = None → render fuel w = Some (w', p) →
  ∃ fuel' w1 d,
    fuel = S fuel' ∧ p = length (promises w)
    ∧ invoke_listeners (render fuel') (listeners w) false (new_promise w) = Some (w1, d)
    ∧ w' = set_renderPromise (Some p)
             (after_dispatch p (negb d) (emit (BeforeStreamRender p d) w1)).
Proof.
  intros Hnone Hr. destruct fuel as [|fuel']; simpl in Hr; rewrite Hnone in Hr; [done|].
  unfold dispatchEvent in Hr. simpl in Hr.
  destruct (invoke_listeners _ _ _ _) as [[w1 d]|] eqn:E; [|done].
  injection Hr as <- <-. by exists fuel', w1, d.
Qed.

Lemma render_stores fuel w w' p :
  render fuel w = Some (w', p) → renderPromise w' = Some p.
Proof.
  intros Hr. destruct (renderPromise w) as [q|] eqn:E.
  - rewrite (render_cached _ _ q E) in Hr. by injection Hr as <- <-.
  - destruct (render_inv _ _ _ _ E Hr) as (? & ? & d & _ & _ & _ & ->).
    by destruct d.
Qed.

(** ** The fuel is only a bound *)

Section Monotone.
Variables rerender1 rerender2 : World → option (World * nat).
Hypothesis rerender_le : ∀ w r, rerender1 w = Some r → rerender2 w = Some r.

Lemma run_callback_mono ops d w r :
  run_callback rerender1 ops d w = Some r → run_callback rerender2 ops d w = Some r.
Proof.
  revert d w. induction ops as [|op ops IH]; intros d w H; simpl in *; [done|].
  destruct op; [by apply IH|].
  destruct (rerender1 w) as [[w1 q]|] eqn:E; [|done].
  rewrite (rerender_le _ _ E). by apply IH.
Qed.

Lemma invoke_listeners_mono snapshot d w r :
  invoke_listeners rerender1 snapshot d w = Some r →
  invoke_listeners rerender2 snapshot d w = Some r.
Proof.
  revert d w. induction snapshot as [|l rest IH]; intros d w H; simpl in *; [done|].
  destruct (registered l w); [|by apply IH].
  destruct (run_callback rerender1 _ _ _) as [[w2 d2]|] eqn:E; [|done].
  rewrite (run_callback_mono _ _ _ _ E). by apply IH.
Qed.
End Monotone.

Lemma render_unfold fuel w :
  renderPromise w = None →
  render (S fuel) w =
    match invoke_listeners (render fuel) (listeners w) false (new_promise w) with
    | Some (w1, d) =>
        let p := length (promises w) in
        Some (set_renderPromise (Some p)
                (after_dispatch p (negb d) (emit (BeforeStreamRender p d) w1)), p)
    | None => None
    end.
Proof.
  intros H. cbn [render]. rewrite H. unfold dispatchEvent. simpl listeners.
  by destruct (invoke_listeners _ _ _ _) as [[w1 d]|].
Qed.

Lemma render_fuel_S fuel w r :
  render fuel w = Some r → render (S fuel) w = Some r.
Proof.
  revert w r. induction fuel as [|fuel IH]; intros w r H.
  - simpl in *. by destruct (renderPromise w).
  - destruct (renderPromise w) as [q|] eqn:Hrp.
    + rewrite (render_cached (S fuel) _ q Hrp) in H.
      by rewrite (render_cached (S (S fuel)) _ q Hrp).
    + rewrite render_unfold in H by done. rewrite render_unfold by done.
      destruct (invoke_listeners (render fuel) _ _ _) as [[w1 d]|] eqn:E; [|done].
      by rewrite (invoke_listeners_mono _ _ IH _ _ _ _ E).
Qed.

Lemma render_fuel_le fuel fuel' w r :
  fuel ≤ fuel' → render fuel w = Some r → render fuel' w = Some r.
Proof.
  induction 1 as [|fuel' _ IH]; [done|]. intros H. by apply render_fuel_S, IH.
Qed.

(** Two calls that return, with whatever fuel, return the same. *)
Lemma render_fuel_agree fuel fuel' w r r' :
  render fuel w = Some r → render fuel' w = Some r' → r = r'.
Proof.
  intros H H'. destruct (Nat.le_ge_cases fuel fuel') as [Hle|Hle].
  - apply (render_fuel_le _ _ _ _ Hle) in H. congruence.
  - apply (render_fuel_le _ _ _ _ Hle) in H'. congruence.
Qed.

(** ** Properties kept by every call of [render] *)

Section Preservation.
Variable P : World → Prop.
Hypothesis P_new_promise : ∀ w, P w → P (new_promise w).
Hypothesis P_unregister : ∀ w l, P w → P (unregister l w).
Hypothesis P_finish : ∀ w0 w p d,
  P w0 → P w → p = length (promises w0) →
  P (set_renderPromise (Some p)
       (after_dispatch p (negb d) (emit (BeforeStreamRender p d) w))).

Section Callbacks.
Variable rerender : World → option (World * nat).
Hypothesis P_rerender : ∀ w w' p, P w → rerender w = Some (w', p) → P w'.

Lemma run_callback_preserves ops d w w' d' :
  P w → run_callback rerender ops d w = Some (w', d') → P w'.
Proof.
  revert d w. induction ops as [|op ops IH]; intros d w HP Hr; simpl in Hr.
  - by injection Hr as <- <-.
  - destruct op; [by eapply IH|].
    destruct (rerender w) as [[w1 q]|] eqn:E; [|done]. eapply IH; [|done].
    by eapply P_rerender.
Qed.

Lemma invoke_listeners_preserves snapshot d w w' d' :
  P w → invoke_listeners rerender snapshot d w = Some (w', d') → P w'.
Proof.
  revert d w. induction snapshot as [|l rest IH]; intros d w HP Hr; simpl in Hr.
  - by injection Hr as <- <-.
  - destruct (registered l w); [|by eapply IH].
    destruct (run_callback _ _ _ _) as [[w2 d2]|] eqn:E; [|done].
    eapply IH; [|done]. eapply run_callback_preserves; [|done].
    destruct (once l); [by apply P_unregister | done].
Qed.
End Callbacks.

Lemma render_preserves fuel w w' p :
  P w → render fuel w = Some (w', p) → P w'.
Proof.
  revert w w' p. induction fuel as [|fuel IH]; intros w w' p HP Hr.
  - simpl in Hr. destruct (renderPromise w); [|done]. by injection Hr as <- <-.
  - destruct (renderPromise w) as [q|] eqn:E.
    + rewrite (render_cached _ _ q E) in Hr. by injection Hr as <- <-.
    + destruct (render_inv _ _ _ _ E Hr) as (f & w1 & d & [= <-] & -> & Hl & ->).
      eapply P_finish; [exact HP | | done].
      eapply invoke_listeners_preserves; [apply IH | | exact Hl].
      by apply P_new_promise.
Qed.
End Preservation.

(** ** What listeners that call [render] can do *)

Lemma reentered_refl k w : k ≤ length (promises w) → reentered k w w.
Proof.
  intros Hk. unfold reentered, same_element. split_and!; try done.
  - exists []. by rewrite app_nil_r.
  - exists []. by rewrite app_nil_r.
Qed.

Lemma reentered_new_promise k w0 w :
  reentered k w0 w → reentered k w0 (new_promise w).
Proof.
  intros (Hs & Hc & Ha & Hk & Hp & Hq & Hl & Hr).
  unfold reentered. simpl. split_and!; try done.
  - rewrite length_app. lia.
  - intros i Hi. rewrite lookup_app_l by lia. by apply Hp.
  - intros H. apply Forall_app. split; [by apply Hr | by repeat constructor].
Qed.

Lemma reentered_unregister k w0 w l :
  reentered k w0 w → reentered k w0 (unregister l w).
Proof. done. Qed.

Lemma reentered_finish k w0 wa w p d :
  reentered k w0 wa → reentered k w0 w → p = length (promises wa) →
  reentered k w0
    (set_renderPromise (Some p)
       (after_dispatch p (negb d) (emit (BeforeStreamRender p d) w))).
Proof.
  intros (_ & _ & _ & Hka & _) (Hs & Hc & Ha & Hk & Hp & (q & Hq & Hqk) & (l & Hl & Hlk) & Hr) ->.
  assert (∃ l', log w ++ [BeforeStreamRender (length (promises wa)) d] = log w0 ++ l'
            ∧ Forall (λ e, is_dispatch e = true
                           ∧ ∃ i, activation_of e = Some i ∧ k ≤ i) l') as Hlog.
  { exists (l ++ [BeforeStreamRender (length (promises wa)) d]).
    rewrite Hl, <- app_assoc. split; [done|].
    apply Forall_app. split; [done|]. repeat constructor. simpl. eauto. }
  destruct d; unfold reentered, after_dispatch; simpl; split_and!; try done.
  - by rewrite length_insert.
  - intros i Hi. rewrite list_lookup_insert_ne by lia. by apply Hp.
  - by exists q.
  - intros H. apply Forall_insert; [by apply Hr | done].
  - exists (q ++ [length (promises wa)]). rewrite Hq, <- app_assoc. split; [done|].
    apply Forall_app. split; [done|]. by repeat constructor.
Qed.

Lemma render_reentered k w0 fuel w w' p :
  reentered k w0 w → render fuel w = Some (w', p) → reentered k w0 w'.
Proof.
  apply (render_preserves (reentered k w0)).
  - apply reentered_new_promise.
  - intros ? l. apply reentered_unregister.
  - intros wa w1 q d. apply reentered_finish.
Qed.

(** The first call of [render] on an element: its activation is the next
    promise, and apart from what listeners caused by calling [render] again
    it records its dispatch, then suspends or completes. *)
Lemma render_first fuel w w' p :
  renderPromise w = None → render fuel w = Some (w', p) →
  p = length (promises w)
  ∧ ∃ w1 d, reentered (S p) (new_promise w) w1
      ∧ w' = set_renderPromise (Some p)
               (after_dispatch p (negb d) (emit (BeforeStreamRender p d) w1)).
Proof.
  intros Hnone Hr.
  destruct (render_inv _ _ _ _ Hnone Hr) as (f & w1 & d & -> & -> & Hl & ->).
  split; [done|]. exists w1, d. split; [|done].
  eapply (invoke_listeners_preserves (reentered _ (new_promise w))); [| | | exact Hl].
  - intros ? l. apply reentered_unregister.
  - intros wa wb q. apply render_reentered.
  - apply reentered_refl. simpl. rewrite length_app. simpl. lia.
Qed.

(** The queue of suspended activations grows with the uncanceled dispatches. *)
Lemma render_queue_matches_log fuel w w' p :
  queue_matches_log w → render fuel w = Some (w', p) → queue_matches_log w'.
Proof.
  apply (render_preserves queue_matches_log); try done.
  intros wa w1 q d _ H _. unfold queue_matches_log in *.
  destruct d; unfold after_dispatch; simpl.
  - rewrite List.filter_app. simpl. by rewrite app_nil_r.
  - rewrite List.filter_app, !length_app. simpl. lia.
Qed.


(** ** The animation frame *)

Lemma same_element_trans w0 w1 w2 :
  same_element w0 w1 → same_element w1 w2 → same_element w0 w2.
Proof. unfold same_element. intros (?&?&?&?&?&?) (?&?&?&?&?&?). split_and!; congruence. Qed.

Lemma description_same w0 w : same_element w0 w → description w = description w0.
Proof. intros (_ & _ & H & _). unfold description. by rewrite H. Qed.

Lemma performAction_same w0 w :
  same_element w0 w → performAction w = performAction w0.
Proof.
  intros Hs. pose proof (description_same _ _ Hs) as Hd.
  destruct Hs as (Ha & _ & _ & _ & Hr & _).
  unfold performAction, action, getAttribute, raise. by rewrite Ha, Hr, Hd.
Qed.

Lemma targetElement_same w0 w :
  same_element w0 w → targetElement w = targetElement w0.
Proof.
  intros Hs. pose proof (description_same _ _ Hs) as Hd.
  destruct Hs as (Ha & _ & _ & Hi & _).
  unfold targetElement, target, getAttribute, raise. by rewrite Ha, Hi, Hd.
Qed.

Lemma templateElement_same w0 w :
  same_element w0 w → templateElement w = templateElement w0.
Proof.
  intros Hs. pose proof (description_same _ _ Hs) as Hd.
  destruct Hs as (_ & Hc & _).
  unfold templateElement, raise. by rewrite Hc, Hd.
Qed.

Lemma run_handler_same h w0 w :
  same_element w0 w → run_handler h w = run_handler h w0.
Proof.
  intros Hs. induction h as [| |k IH|k IH|k IH]; simpl; try done.
  - rewrite (targetElement_same _ _ Hs). by destruct (targetElement w0).
  - rewrite (templateElement_same _ _ Hs). by destruct (templateElement w0).
  - unfold templateContent. rewrite (templateElement_same _ _ Hs).
    by destruct (templateElement w0).
Qed.

Lemma action_result_same w0 w :
  same_element w0 w → action_result w = action_result w0.
Proof.
  intros Hs. unfold action_result. rewrite (performAction_same _ _ Hs).
  destruct (performAction w0); [by apply run_handler_same | done].
Qed.

Lemma action_calls_same w0 w q :
  same_element w0 w → action_calls w q = action_calls w0 q.
Proof.
  intros Hs. unfold action_calls. rewrite (performAction_same _ _ Hs).
  destruct Hs as (Ha & _). unfold action, getAttribute. by rewrite Ha.
Qed.

(** Resuming an activation: the handler call is logged if the getter found
    one, and the promise is settled with what came of it. *)
Lemma resume_render_spec p w :
  resume_render p w =
    set_log (log w ++ action_calls w [p])
      (set_promises (<[p := outcome (action_result w)]> (promises w)) w).
Proof.
  unfold resume_render, call_performAction, action_result, action_calls.
  destruct (performAction w) as [h|e] eqn:E; simpl.
  - rewrite (run_handler_same h w (emit _ w)) by done. done.
  - rewrite app_nil_r. by destruct w.
Qed.

Lemma foldl_resume_render q w :
  foldl (λ w p, resume_render p w) w q =
    set_log (log w ++ action_calls w q)
      (set_promises (settle_all q (outcome (action_result w)) (promises w)) w).
Proof.
  revert w. induction q as [|p q IH]; intros w.
  - unfold action_calls, settle_all. simpl.
    destruct (performAction w); simpl; rewrite app_nil_r; by destruct w.
  - simpl. rewrite IH.
    assert (same_element w (resume_render p w)) as Hs
      by (by rewrite resume_render_spec).
    rewrite (action_result_same _ _ Hs), (action_calls_same _ _ _ Hs).
    rewrite resume_render_spec. unfold settle_all, set_log, set_promises. simpl.
    f_equal. rewrite <- app_assoc. f_equal.
    unfold action_calls. by destruct (performAction w).
Qed.

Lemma animationFrame_spec w :
  animationFrame w =
    set_log (log w ++ action_calls w (frame_queue w))
      (set_promises
         (settle_all (frame_queue w) (outcome (action_result w)) (promises w))
         (set_frame_queue [] w)).
Proof.
  unfold animationFrame. rewrite foldl_resume_render.
  rewrite (action_result_same w (set_frame_queue [] w)) by done.
  by rewrite (action_calls_same w (set_frame_queue [] w)).
Qed.

Lemma settle_all_other q st ps i :
  i ∉ q → settle_all q st ps !! i = ps !! i.
Proof.
  unfold settle_all. revert ps. induction q as [|p q IH]; intros ps Hi; simpl; [done|].
  apply not_elem_of_cons in Hi as [Hne Hi].
  rewrite IH by done. by rewrite list_lookup_insert_ne.
Qed.

Lemma settle_all_member q st ps i :
  i ∈ q → i < length ps → settle_all q st ps !! i = Some st.
Proof.
  unfold settle_all. revert ps. induction q as [|p q IH]; intros ps Hi Hlen; simpl.
  - by apply elem_of_nil in Hi.
  - destruct (decide (i ∈ q)) as [Hin|Hnin].
    + apply IH; [done|]. by rewrite length_insert.
    + apply elem_of_cons in Hi as [->|]; [|done].
      fold (settle_all q st (<[p := st]> ps)).
      rewrite settle_all_other by done. by apply list_lookup_insert_eq.
Qed.


(** ** Attachment of a new element *)

Lemma microtasks_idle w : awaiting w = [] → microtasks w = w.
Proof. intros H. unfold microtasks. rewrite H. simpl. rewrite <- H. by destruct w. Qed.

Lemma microtasks_single w a :
  awaiting w = [a] → microtasks w = resume_connectedCallback a (set_awaiting [] w).
Proof. intros H. unfold microtasks. by rewrite H. Qed.

(** After [connectedCallback] has run up to its await: activation 0 awaits
    activation 1, whose dispatch is logged after those of the activations,
    from 2 on, that listeners started. *)
Lemma connectedCallback_first attrs child html ls actions doc_ids rm_throws fuel w1 :
  let w0 := createElement attrs child html ls actions doc_ids rm_throws in
  connectedCallback fuel w0 = Some w1 →
  ∃ wl d,
    reentered 2 (new_promise (new_promise w0)) wl
    ∧ w1 = set_awaiting [(1, 0)]
             (set_renderPromise (Some 1)
                (after_dispatch 1 (negb d) (emit (BeforeStreamRender 1 d) wl))).
Proof.
  simpl. intros H. unfold connectedCallback in H.
  destruct (render fuel _) as [[w' p]|] eqn:Hr; [|done]. injection H as <-.
  apply render_first in Hr as (-> & wl & d & Hre & ->); [|done].
  exists wl, d. split; [exact Hre|].
  destruct Hre as (_ & _ & Ha & _). simpl in Ha.
  destruct d; unfold after_dispatch; simpl; by rewrite Ha.
Qed.

Lemma is_silent_dispatches k l :
  2 ≤ k →
  Forall (λ e, is_dispatch e = true ∧ ∃ i, activation_of e = Some i ∧ k ≤ i) l →
  Forall (λ e, is_silent e = true) l.
Proof.
  intros Hk H. eapply Forall_impl; [exact H|]. intros e [He _]. by destruct e.
Qed.

(** ** Schedules after a canceled dispatch *)

Lemma action_calls_silent w q :
  Forall (λ i, 2 ≤ i) q → Forall (λ e, is_silent e = true) (action_calls w q).
Proof.
  intros Hq. unfold action_calls. destruct (performAction w); [|constructor].
  apply Forall_fmap. eapply Forall_impl; [exact Hq|].
  intros i Hi. simpl. by destruct i as [|[|i]]; [lia..|].
Qed.

Lemma disconnect_spec w :
  disconnect w =
    set_isConnected (if remove_throws w then isConnected w else false)
      (emit RemoveCalled w).
Proof. unfold disconnect, remove. destruct (remove_throws w); [by destruct w | done]. Qed.

Lemma action_calls_no_cleanup w q : List.filter is_cleanup (action_calls w q) = [].
Proof.
  unfold action_calls. destruct (performAction w); [|done].
  by induction q.
Qed.

Lemma dispatches_no_cleanup l :
  Forall (λ e, is_dispatch e = true) l → List.filter is_cleanup l = [].
Proof.
  induction 1 as [|e l He _ IH]; [done|]. simpl. by destruct e.
Qed.

Lemma canceled_state_step rm_throws resumed fuel s w :
  canceled_state rm_throws resumed w →
  ∃ w', step fuel s w = Some w'
        ∧ canceled_state rm_throws (resumed || is_microtasks s) w'
        ∧ (idle_state w → idle_state w').
Proof.
  intros (Hrp & Hp & Hq & Hrm & Hlog & Hres). destruct s; simpl.
  - exists w. rewrite (render_cached _ _ 1 Hrp). rewrite orb_false_r.
    split_and!; done.
  - exists (animationFrame w). rewrite orb_false_r, animationFrame_spec.
    split_and!; [done | | ].
    + unfold canceled_state. simpl. split_and!; try done.
      * rewrite settle_all_other; [done|].
        intros Hin. rewrite Forall_forall in Hq. apply Hq in Hin. lia.
      * apply Forall_app. split; [done | by apply action_calls_silent].
      * assert (0 ∉ frame_queue w) as H0.
        { intros Hin. rewrite Forall_forall in Hq. apply Hq in Hin. lia. }
        rewrite List.filter_app, action_calls_no_cleanup, app_nil_r.
        by rewrite settle_all_other.
    + intros [Hidle Hact]. unfold idle_state. simpl. split; [done|].
      rewrite Hidle. unfold action_calls. destruct (performAction w); simpl;
        by rewrite app_nil_r.
  - rewrite orb_true_r. exists (microtasks w). split; [done|].
    destruct resumed.
    + destruct Hres as (Ha & ? & ? & ?). rewrite (microtasks_idle _ Ha).
      split; [|done]. unfold canceled_state. split_and!; done.
    + destruct Hres as (Ha & Hcl & Hc). rewrite (microtasks_single _ _ Ha).
      unfold resume_connectedCallback. simpl. rewrite Hp.
      rewrite disconnect_spec. simpl. split.
      * unfold canceled_state. simpl. split_and!; try done.
        -- by rewrite list_lookup_insert_ne.
        -- apply Forall_app. split; [done | by repeat constructor].
        -- rewrite List.filter_app, Hcl. done.
        -- apply list_lookup_insert_eq. apply lookup_lt_Some in Hp. lia.
        -- rewrite Hrm. by destruct rm_throws.
      * intros [Hidle Hact]. unfold idle_state. simpl. split; [done|].
        apply Forall_app. split; [done | by repeat constructor].
Qed.

Lemma canceled_state_run rm_throws resumed fuel ss w :
  canceled_state rm_throws resumed w →
  ∃ w', run fuel ss w = Some w'
        ∧ canceled_state rm_throws (resumed || existsb is_microtasks ss) w'
        ∧ (idle_state w → idle_state w').
Proof.
  revert resumed w. induction ss as [|s ss IH]; intros resumed w H.
  - exists w. simpl. rewrite orb_false_r. done.
  - destruct (canceled_state_step _ _ fuel s _ H) as (w1 & Hs & H1 & Hi1).
    destruct (IH _ _ H1) as (w2 & Hr & H2 & Hi2).
    exists w2. simpl. rewrite Hs. split_and!; [done | | by auto].
    by rewrite orb_assoc.
Qed.

(** ** Listeners that do not call [render] *)

Lemma run_callback_non_reentrant rerender ops d w :
  Render ∉ ops →
  run_callback rerender ops d w = Some (w, d || bool_decide (PreventDefault ∈ ops)).
Proof.
  revert d. induction ops as [|op ops IH]; intros d Hops; cbn [run_callback].
  - rewrite bool_decide_eq_false_2 by apply not_elem_of_nil. by rewrite orb_false_r.
  - apply not_elem_of_cons in Hops as [Hop Hops]. destruct op; [|done].
    rewrite IH by done.
    rewrite (bool_decide_eq_true_2 (PreventDefault ∈ PreventDefault :: ops))
      by apply list_elem_of_here.
    by rewrite orb_true_r.
Qed.

Lemma registered_unregister_ne l l' w :
  listener_id l' ≠ listener_id l →
  registered l' (unregister l w) = registered l' w.
Proof.
  intros Hne. unfold registered, unregister. simpl.
  apply bool_decide_ext. rewrite !list_elem_of_fmap. split.
  - intros (x & Hx & Hin). apply list_elem_of_filter in Hin as [_ Hin]. eauto.
  - intros (x & Hx & Hin). exists x. split; [done|].
    apply list_elem_of_filter. split; [congruence | done].
Qed.

(** With distinct identities and no call of [render], every listener of the
    snapshot runs, nothing but the list of listeners changes, and the event
    ends up canceled exactly when one of them cancels it. *)
Lemma invoke_listeners_non_reentrant rerender rest d w :
  Forall non_reentrant rest →
  NoDup (listener_id <$> rest) →
  Forall (λ l, registered l w = true) rest →
  ∃ ls', invoke_listeners rerender rest d w =
           Some (set_listeners ls' w, d || bool_decide (Exists cancels rest)).
Proof.
  revert d w. induction rest as [|l rest IH]; intros d w Hnr Hnd Hreg;
    cbn [invoke_listeners].
  - exists (listeners w). rewrite bool_decide_eq_false_2 by (by intros H%Exists_nil).
    rewrite orb_false_r. by destruct w.
  - inversion Hnr as [|? ? Hl Hrest]; subst.
    inversion Hreg as [|? ? Hrl Hrrest]; subst.
    rewrite fmap_cons in Hnd. apply NoDup_cons in Hnd as [Hnotin Hnd].
    rewrite Hrl. cbv zeta. rewrite run_callback_non_reentrant by exact Hl.
    set (w1 := if once l then unregister l w else w).
    assert (∃ ls1, w1 = set_listeners ls1 w) as [ls1 Hw1].
    { unfold w1. destruct (once l); [by eexists|]. exists (listeners w). by destruct w. }
    destruct (IH (d || bool_decide (PreventDefault ∈ callback l)) w1 Hrest Hnd)
      as (ls' & Hls').
    { rewrite Forall_forall in Hrrest. apply Forall_forall. intros l' Hin.
      unfold w1. destruct (once l); [|by apply Hrrest].
      rewrite registered_unregister_ne; [by apply Hrrest|].
      intros Heq. apply Hnotin. rewrite <- Heq. by apply list_elem_of_fmap_2. }
    clearbody w1. exists ls'. etransitivity; [exact Hls'|]. rewrite Hw1. f_equal. f_equal.
    rewrite <- orb_assoc. f_equal. symmetry.
    etransitivity; [|apply bool_decide_or]. apply bool_decide_ext.
    by rewrite Exists_cons.
Qed.

Lemma listeners_registered w :
  Forall (λ l, registered l w = true) (listeners w).
Proof.
  apply Forall_forall. intros l Hl. apply bool_decide_eq_true.
  by apply list_elem_of_fmap_2.
Qed.

(** The first [render] on an element whose listeners do not call [render]:
    one dispatch, canceled exactly when a listener cancels. *)
Lemma render_non_reentrant fuel w :
  renderPromise w = None →
  Forall non_reentrant (listeners w) →
  NoDup (listener_id <$> listeners w) →
  let p := length (promises w) in
  let d := bool_decide (Exists cancels (listeners w)) in
  ∃ ls', render (S fuel) w =
           Some (set_renderPromise (Some p)
                   (after_dispatch p (negb d)
                      (emit (BeforeStreamRender p d)
                         (set_listeners ls' (new_promise w)))), p).
Proof.
  intros Hnone Hnr Hnd. simpl. rewrite Hnone. unfold dispatchEvent. simpl.
  destruct (invoke_listeners_non_reentrant (render fuel) (listeners w) false
              (new_promise w) Hnr Hnd) as (ls' & Hls').
  { apply (listeners_registered (new_promise w)). }
  rewrite Hls'. simpl. by exists ls'.
Qed.

(** ** Termination *)

Lemma unregister_length l w :
  registered l w = true →
  length (listeners (unregister l w)) < length (listeners w).
Proof.
  intros H. apply bool_decide_eq_true in H.
  apply list_elem_of_fmap in H as (l' & Hid & Hin). simpl.
  apply (length_filter_lt _ _ l'); [done|]. intros Hne. by apply Hne.
Qed.

Lemma unregister_keeps (P : Listener → Prop) l w :
  Forall P (listeners w) → Forall P (listeners (unregister l w)).
Proof.
  rewrite !Forall_forall. intros H x Hx. simpl in Hx.
  apply list_elem_of_filter in Hx as [_ Hx]. by apply H.
Qed.

Lemma render_keeps_once_if_reentrant fuel w w' p :
  Forall once_if_reentrant (listeners w) → render fuel w = Some (w', p) →
  Forall once_if_reentrant (listeners w').
Proof.
  apply (render_preserves (λ w, Forall once_if_reentrant (listeners w))).
  - done.
  - intros x l H. by apply unregister_keeps.
  - intros wa x q d _ H _. by destruct d.
Qed.

Section Termination.
Variable fuel : nat.
Hypothesis render_returns : ∀ w,
  Forall once_if_reentrant (listeners w) → length (listeners w) < fuel →
  is_Some (render fuel w).

(** What a dispatch needs of the world to go on: the listeners left are
    as required, and either [render] has stored its promise, so that calls
    return at once, or the fuel covers the listeners left. *)
Let ready (bound : nat) (w : World) : Prop :=
  Forall once_if_reentrant (listeners w)
  ∧ (renderPromise w ≠ None ∨ length (listeners w) < bound).

Lemma run_callback_returns ops d w :
  ready fuel w →
  ∃ w' d', run_callback (render fuel) ops d w = Some (w', d') ∧ ready fuel w'.
Proof.
  revert d w. induction ops as [|op ops IH]; intros d w Hw; simpl.
  - by exists w, d.
  - destruct op; [by apply IH|].
    assert (∃ w1 q, render fuel w = Some (w1, q) ∧ ready fuel w1) as (w1 & q & Hr & H1).
    { destruct Hw as [Hok Hfuel]. destruct (renderPromise w) as [q|] eqn:E.
      - exists w, q. split; [by apply render_cached|]. split; [done|]. left. by rewrite E.
      - destruct Hfuel as [Hne|Hlen]; [done|].
        destruct (render_returns w Hok Hlen) as [[w1 q] Hr]. exists w1, q.
        split; [done|]. split; [by eapply render_keeps_once_if_reentrant|].
        left. by rewrite (render_stores _ _ _ _ Hr). }
    rewrite Hr. by apply IH.
Qed.

Lemma invoke_listeners_returns snapshot d w :
  Forall once_if_reentrant snapshot →
  ready (S fuel) w →
  is_Some (invoke_listeners (render fuel) snapshot d w).
Proof.
  revert d w. induction snapshot as [|l rest IH]; intros d w Hs Hw; simpl; [done|].
  inversion Hs as [|? ? Hl Hrest]; subst.
  destruct (registered l w) eqn:Hreg; [|by apply IH].
  destruct Hl as [Hnr|Honce].
  - rewrite run_callback_non_reentrant by exact Hnr. apply IH; [done|].
    destruct Hw as [Hok Hfuel]. destruct (once l); [|done]. split.
    + by apply unregister_keeps.
    + destruct Hfuel as [Hne|Hlen]; [by left|]. right.
      pose proof (unregister_length l w Hreg). lia.
  - rewrite Honce.
    destruct (run_callback_returns (callback l) d (unregister l w))
      as (w' & d' & -> & Hok' & Hfuel').
    { destruct Hw as [Hok Hfuel]. split.
      - by apply unregister_keeps.
      - destruct Hfuel as [Hne|Hlen]; [by left|]. right.
        pose proof (unregister_length l w Hreg). lia. }
    apply IH; [done|]. split; [done|].
    destruct Hfuel' as [Hne|Hlen]; [by left | right; lia].
Qed.
End Termination.

(** [render] returns when the fuel exceeds the number of listeners and each
    listener that calls [render] is registered once. *)
Lemma render_returns fuel w :
  Forall once_if_reentrant (listeners w) → length (listeners w) < fuel →
  is_Some (render fuel w).
Proof.
  revert w. induction fuel as [|fuel IH]; intros w Hok Hlen; [lia|].
  destruct (renderPromise w) as [q|] eqn:E.
  - rewrite (render_cached _ _ q E). by eexists.
  - rewrite render_unfold by done.
    destruct (invoke_listeners_returns fuel IH (listeners w) false (new_promise w))
      as [[w1 d] ->]; [done | | done].
    split; [done|]. right. simpl. lia.
Qed.

Lemma connectedCallback_returns attrs child html ls actions doc_ids rm_throws :
  Forall once_if_reentrant ls →
  is_Some (connectedCallback (S (length ls))
             (createElement attrs child html ls actions doc_ids rm_throws)).
Proof.
  intros Hok. unfold connectedCallback.
  destruct (render_returns (S (length ls))
              (new_promise (createElement attrs child html ls actions doc_ids rm_throws)))
    as [[w1 p] ->]; [done | simpl; lia | done].
Qed.

Lemma connectedCallback_non_reentrant attrs child html ls actions doc_ids rm_throws fuel :
  let w0 := createElement attrs child html ls actions doc_ids rm_throws in
  let d := bool_decide (Exists cancels ls) in
  Forall non_reentrant ls →
  NoDup (listener_id <$> ls) →
  ∃ ls', connectedCallback (S fuel) w0 =
           Some (set_awaiting [(1, 0)]
                   (set_renderPromise (Some 1)
                      (after_dispatch 1 (negb d)
                         (emit (BeforeStreamRender 1 d)
                            (set_listeners ls' (new_promise (new_promise w0))))))).
Proof.
  intros w0 d Hnr Hnd. unfold connectedCallback.
  destruct (render_non_reentrant fuel (new_promise w0)) as (ls' & Hr); [done..|].
  rewrite Hr. exists ls'. subst d. simpl.
  by destruct (bool_decide (Exists cancels ls)).
Qed.

Lemma connectedCallback_queue_matches_log
    attrs child html ls actions doc_ids rm_throws fuel w1 :
  connectedCallback fuel (createElement attrs child html ls actions doc_ids rm_throws)
    = Some w1 →
  queue_matches_log w1.
Proof.
  unfold connectedCallback. intros H.
  destruct (render fuel _) as [[w' p]|] eqn:Hr; [|done]. injection H as <-.
  by apply render_queue_matches_log in Hr.
Qed.

Lemma no_uncanceled_filter l :
  (∀ p, BeforeStreamRender p false ∉ l) → List.filter is_uncanceled l = [].
Proof.
  induction l as [|e l IH]; intros H; [done|]. simpl.
  assert (is_uncanceled e = false) as ->.
  { destruct e as [p [|]| | |]; try done. destruct (H p). apply list_elem_of_here. }
  apply IH. intros p Hp. apply (H p). by apply list_elem_of_further.
Qed.

(** ** Every canceled dispatch *)

(** As [render_preserves], for a property whose proof at the end of a call of
    [render] needs to know that all that happened since the call began came
    from newer activations. *)
Lemma render_preserves_fresh (P : World → Prop) :
  (∀ w, P w → P (new_promise w)) →
  (∀ w l, P w → P (unregister l w)) →
  (∀ w0 w d,
     let p := length (promises w0) in
     P w0 → P w → reentered (S p) (new_promise w0) w →
     P (set_renderPromise (Some p)
          (after_dispatch p (negb d) (emit (BeforeStreamRender p d) w)))) →
  ∀ fuel w w' p, P w → render fuel w = Some (w', p) → P w'.
Proof.
  intros P_new_promise P_unregister P_finish.
  induction fuel as [|fuel IH]; intros w w' p HP Hr.
  - simpl in Hr. destruct (renderPromise w); [|done]. by injection Hr as <- <-.
  - destruct (renderPromise w) as [q|] eqn:E.
    + rewrite (render_cached _ _ q E) in Hr. by injection Hr as <- <-.
    + destruct (render_inv _ _ _ _ E Hr) as (f & w1 & d & [= <-] & -> & Hl & ->).
      apply P_finish; [exact HP | |].
      * eapply (invoke_listeners_preserves P); [done | apply IH | | exact Hl].
        by apply P_new_promise.
      * eapply (invoke_listeners_preserves (reentered _ (new_promise w)));
          [| | | exact Hl].
        -- intros ? l. apply reentered_unregister.
        -- intros wa wb q. apply render_reentered.
        -- apply reentered_refl. simpl. rewrite length_app. simpl. lia.
Qed.

Lemma render_dispatches_consistent fuel w w' p :
  dispatches_consistent w → render fuel w = Some (w', p) → dispatches_consistent w'.
Proof.
  apply (render_preserves_fresh dispatches_consistent).
  - intros x (Hq & Ht & Hu). unfold dispatches_consistent. simpl.
    split_and!; [done | | done].
    intros e i He Hi. rewrite length_app. specialize (Ht e i He Hi). lia.
  - done.
  - intros wa x d q (Hqa & Hta & Hua) (Hq & Ht & Hu)
      (_ & _ & _ & Hlen & _ & _ & (l & Hl & Hlk) & _).
    simpl in Hl.
    assert (∀ d', BeforeStreamRender q d' ∉ log x) as Hfresh.
    { intros d' Hin. rewrite Hl in Hin. apply elem_of_app in Hin as [Hin|Hin].
      - specialize (Hta _ q Hin eq_refl). unfold q in Hta. lia.
      - rewrite Forall_forall in Hlk.
        destruct (Hlk _ Hin) as (_ & i & [= <-] & Hi). lia. }
    assert (log (set_renderPromise (Some q)
                   (after_dispatch q (negb d) (emit (BeforeStreamRender q d) x)))
            = log x ++ [BeforeStreamRender q d]) as Hlog by (by destruct d).
    unfold dispatches_consistent. rewrite Hlog. split_and!.
    + intros i Hi. apply elem_of_app.
      destruct d; simpl in Hi.
      * left. by apply Hq.
      * apply elem_of_app in Hi as [Hi|Hi]; [left; by apply Hq|].
        apply list_elem_of_singleton in Hi as ->. right. apply list_elem_of_here.
    + intros e i He Hi.
      assert (length (promises (set_renderPromise (Some q)
                (after_dispatch q (negb d) (emit (BeforeStreamRender q d) x))))
              = length (promises x)) as ->.
      { destruct d; simpl; [by rewrite length_insert | done]. }
      apply elem_of_app in He as [He|He]; [by eapply Ht|].
      apply list_elem_of_singleton in He as ->. injection Hi as <-. lia.
    + intros i Ht' Hf'.
      apply elem_of_app in Ht' as [Ht'|Ht']; apply elem_of_app in Hf' as [Hf'|Hf'].
      * by eapply Hu.
      * apply list_elem_of_singleton in Hf'. injection Hf' as -> _. by eapply Hfresh.
      * apply list_elem_of_singleton in Ht'. injection Ht' as -> _. by eapply Hfresh.
      * apply list_elem_of_singleton in Ht'. apply list_elem_of_singleton in Hf'. congruence.
Qed.

Lemma resume_connectedCallback_effects a w :
  ∃ l, log (resume_connectedCallback a w) = log w ++ l
       ∧ Forall (λ e, is_cleanup e = true) l
       ∧ renderPromise (resume_connectedCallback a w) = renderPromise w
       ∧ frame_queue (resume_connectedCallback a w) = frame_queue w.
Proof.
  unfold resume_connectedCallback.
  destruct (promises w !! a.1) as [[| |e]|]; rewrite ?disconnect_spec; simpl.
  - exists []. by rewrite app_nil_r.
  - exists [RemoveCalled]. split_and!; [done | by repeat constructor | done | done].
  - exists [ConsoleError e; RemoveCalled]. rewrite <- app_assoc.
    split_and!; [done | by repeat constructor | done | done].
  - exists []. by rewrite app_nil_r.
Qed.

Lemma microtasks_effects w :
  ∃ l, log (microtasks w) = log w ++ l
       ∧ Forall (λ e, is_cleanup e = true) l
       ∧ renderPromise (microtasks w) = renderPromise w
       ∧ frame_queue (microtasks w) = frame_queue w.
Proof.
  unfold microtasks.
  assert (∀ q x, ∃ l, log (foldl (λ w a, resume_connectedCallback a w) x q) = log x ++ l
            ∧ Forall (λ e, is_cleanup e = true) l
            ∧ renderPromise (foldl (λ w a, resume_connectedCallback a w) x q)
              = renderPromise x
            ∧ frame_queue (foldl (λ w a, resume_connectedCallback a w) x q)
              = frame_queue x) as H.
  { induction q as [|a q IH]; intros x; simpl.
    - exists []. by rewrite app_nil_r.
    - destruct (resume_connectedCallback_effects a x) as (l1 & Hl1 & Hc1 & Hr1 & Hq1).
      destruct (IH (resume_connectedCallback a x)) as (l2 & Hl2 & Hc2 & Hr2 & Hq2).
      exists (l1 ++ l2). rewrite Hl2, Hl1, Hr2, Hr1, Hq2, Hq1, <- app_assoc.
      split_and!; try done. by apply Forall_app. }
  apply (H (awaiting w) (set_awaiting [] w)).
Qed.

Lemma cleanup_no_dispatch l :
  Forall (λ e, is_cleanup e = true) l → List.filter is_dispatch l = [].
Proof. induction 1 as [|e l He _ IH]; [done|]. simpl. by destruct e. Qed.

Lemma action_calls_no_dispatch w q : List.filter is_dispatch (action_calls w q) = [].
Proof.
  unfold action_calls. destruct (performAction w); [|done]. by induction q.
Qed.

Lemma rendered_state_step ds fuel s w :
  rendered_state ds w → ∃ w', step fuel s w = Some w' ∧ rendered_state ds w'.
Proof.
  intros (Hrp & Hds & Hq & Ha). destruct s; simpl.
  - destruct (renderPromise w) as [p|] eqn:E; [|done].
    exists w. rewrite (render_cached _ _ p E). split; [done|].
    unfold rendered_state. by rewrite E.
  - exists (animationFrame w). split; [done|]. rewrite animationFrame_spec.
    unfold rendered_state. simpl. split_and!; [done | | | ].
    + by rewrite List.filter_app, action_calls_no_dispatch, app_nil_r.
    + by intros p Hp%elem_of_nil.
    + intros p a Hin. apply elem_of_app in Hin as [Hin|Hin]; [by eapply Ha|].
      unfold action_calls in Hin. destruct (performAction w); [|by apply elem_of_nil in Hin].
      apply list_elem_of_fmap in Hin as (i & [= -> _] & Hi). by apply Hq.
  - exists (microtasks w). split; [done|].
    destruct (microtasks_effects w) as (l & Hl & Hc & Hr & Hf).
    unfold rendered_state. rewrite Hl, Hr, Hf. split_and!; [done | | done |].
    + by rewrite List.filter_app, (cleanup_no_dispatch _ Hc), app_nil_r.
    + intros p a Hin. apply elem_of_app in Hin as [Hin|Hin]; [by eapply Ha|].
      rewrite Forall_forall in Hc. by apply Hc in Hin.
Qed.

Lemma rendered_state_run ds fuel ss w :
  rendered_state ds w → ∃ w', run fuel ss w = Some w' ∧ rendered_state ds w'.
Proof.
  revert w. induction ss as [|s ss IH]; intros w H; [by exists w|].
  simpl. destruct (rendered_state_step ds fuel s w H) as (w1 & -> & H1). by apply IH.
Qed.

(** Whatever the listeners do, once [connectedCallback] has got to its
    await, no schedule makes an activation whose dispatch was canceled call
    the handler. *)
Lemma canceled_activation_never_acts
    attrs child html ls actions doc_ids rm_throws fuel w1 fuel' ss :
  connectedCallback fuel (createElement attrs child html ls actions doc_ids rm_throws)
    = Some w1 →
  ∃ wf, run fuel' ss w1 = Some wf
        ∧ ∀ p a, BeforeStreamRender p true ∈ log w1 → ActionInvoked p a ∉ log wf.
Proof.
  intros Hcc.
  assert (dispatches_consistent w1 ∧ renderPromise w1 ≠ None
          ∧ Forall (λ e, is_dispatch e = true) (log w1)) as ((Hq & _ & Hu) & Hrp & Hd).
  { destruct (connectedCallback_first _ _ _ _ _ _ _ _ _ Hcc)
      as (wl & d & (_ & _ & _ & _ & _ & _ & (l & Hl & Hlk) & _) & Hw1).
    unfold connectedCallback in Hcc.
    destruct (render fuel _) as [[w' p]|] eqn:Hr; [|done]. injection Hcc as <-.
    split_and!.
    - apply render_dispatches_consistent in Hr; [done|].
      unfold dispatches_consistent. simpl. split_and!; intros; by exfalso; eapply elem_of_nil.
    - simpl. by rewrite (render_stores _ _ _ _ Hr).
    - rewrite Hw1. simpl in Hl.
      assert (log (set_awaiting [(1, 0)]
                (set_renderPromise (Some 1)
                   (after_dispatch 1 (negb d) (emit (BeforeStreamRender 1 d) wl))))
              = l ++ [BeforeStreamRender 1 d]) as ->.
      { destruct d; simpl; by rewrite Hl. }
      apply Forall_app. split; [|by repeat constructor].
      eapply Forall_impl; [exact Hlk|]. by intros e [He _]. }
  assert (List.filter is_dispatch (log w1) = log w1) as Hall.
  { clear -Hd. induction Hd as [|e l He _ IH]; [done|]. simpl. by rewrite He, IH. }
  assert (rendered_state (log w1) w1) as Hst.
  { unfold rendered_state. split_and!; [done | done | done |].
    intros p a Hin. rewrite Forall_forall in Hd. by apply Hd in Hin. }
  destruct (rendered_state_run _ fuel' ss _ Hst) as (wf & Hrun & _ & _ & _ & Ha).
  exists wf. split; [done|]. intros p a Hc Hin. by eapply Hu, Ha.
Qed.

(** X14.  On an attached element whose listeners do not call [render] and
    one of which cancels the event, [connectedCallback] gets to its await with
    a single, canceled dispatch.  Whatever the listeners do, once
    [connectedCallback] has got to its await, under every schedule of
    animation frames, microtask checkpoints and further calls of [render]:
    an activation whose dispatch was canceled never calls the handler; if the
    dispatch of the attachment's render (activation 1) was canceled, its
    promise is fulfilled, nothing is reported on the console, and the first
    checkpoint makes [connectedCallback] call [remove], which takes the
    element out of the document unless [remove] throws; and if no dispatch
    went uncanceled, no handler is ever called. *)
Theorem cancellation_skips_action
    (attrs : gmap string string) (child : option Child) (html : string)
    (ls : list Listener) (actions : gmap string Handler) (doc_ids : gset string)
    (rm_throws : bool) :
  let w0 := createElement attrs child html ls actions doc_ids rm_throws in
  (Forall non_reentrant ls → NoDup (listener_id <$> ls) → Exists cancels ls →
     ∃ w1, connectedCallback 1 w0 = Some w1 ∧ log w1 = [BeforeStreamRender 1 true])
  ∧ ∀ fuel w1,
      connectedCallback fuel w0 = Some w1 →
      ∀ fuel' ss, ∃ wf,
        run fuel' ss w1 = Some wf
        ∧ (∀ p a, BeforeStreamRender p true ∈ log w1 → ActionInvoked p a ∉ log wf)
        ∧ (BeforeStreamRender 1 true ∈ log w1 →
             promises wf !! 1 = Some Fulfilled
             ∧ (∀ e, ConsoleError e ∉ log wf)
             ∧ (Microtasks ∈ ss →
                  awaiting wf = [] ∧ RemoveCalled ∈ log wf
                  ∧ isConnected wf = rm_throws))
        ∧ ((∀ p, BeforeStreamRender p false ∉ log w1) →
             ∀ p a, ActionInvoked p a ∉ log wf).
Proof.
  intros w0. split.
  - intros Hnr Hnd Hc.
    destruct (connectedCallback_non_reentrant attrs child html ls actions doc_ids
                rm_throws 0 Hnr Hnd) as (ls' & H).
    rewrite (bool_decide_eq_true_2 _ Hc) in H. eexists. split; [exact H | done].
  - intros fuel w1 Hcc fuel' ss.
    destruct (canceled_activation_never_acts _ _ _ _ _ _ _ _ _ fuel' ss Hcc)
      as (wf & Hrun & Hnever).
    exists wf. split; [exact Hrun|]. split; [exact Hnever|].
    pose proof (connectedCallback_queue_matches_log _ _ _ _ _ _ _ _ _ Hcc) as Hqm.
    destruct (connectedCallback_first _ _ _ _ _ _ _ _ _ Hcc) as (wl & d & Hre & ->).
    destruct Hre as (Hsame & Hconn & Haw & Hlen & Hold & (q & Hq & Hqk)
                     & (l & Hl & Hlk) & _).
    simpl in Hconn, Haw, Hq, Hl.
    set (w1 := set_awaiting _ _) in *.
    assert (log w1 = l ++ [BeforeStreamRender 1 d]) as Hlog.
    { unfold w1. destruct d; simpl; by rewrite Hl. }
    assert (BeforeStreamRender 1 true ∈ log w1 →
            canceled_state rm_throws false w1) as Hst.
    { intros Hin. assert (d = true) as Hd.
      { rewrite Hlog in Hin. apply elem_of_app in Hin as [Hin|Hin].
        - rewrite Forall_forall in Hlk.
          destruct (Hlk _ Hin) as (_ & i & [= <-] & Hi). lia.
        - apply list_elem_of_singleton in Hin. by injection Hin as <-. }
      unfold canceled_state. rewrite Hlog. unfold w1. rewrite Hd. simpl.
      split_and!; try done.
      - apply list_lookup_insert_eq. lia.
      - by rewrite Hq.
      - by destruct Hsame as (_ & _ & _ & _ & _ & ->).
      - apply Forall_app. split; [|by repeat constructor].
        by apply (is_silent_dispatches 2).
      - rewrite List.filter_app. simpl. rewrite app_nil_r.
        apply dispatches_no_cleanup. eapply Forall_impl; [exact Hlk|].
        by intros e [He _]. }
    split.
    + intros Hin.
      destruct (canceled_state_run _ _ fuel' ss _ (Hst Hin)) as (wf' & Hrun' & Hf & _).
      rewrite Hrun in Hrun'. injection Hrun' as <-.
      destruct Hf as (_ & Hp & _ & _ & Hsilent & Hres).
      split_and!; [done | |].
      * intros e He. rewrite Forall_forall in Hsilent. by apply Hsilent in He.
      * intros Hm. rewrite (proj2 (existsb_exists _ _)) in Hres.
        -- destruct Hres as (Ha & Hcl & _ & Hc). split_and!; [done | | done].
           apply list_elem_of_In. apply (List.filter_In is_cleanup).
           rewrite Hcl. by left.
        -- exists Microtasks. split; [|done]. by apply list_elem_of_In.
    + intros Hnone p a.
      assert (d = true) as Hd.
      { destruct d; [done|]. destruct (Hnone 1). rewrite Hlog.
        apply elem_of_app. right. apply list_elem_of_here. }
      assert (BeforeStreamRender 1 true ∈ log w1) as Hin.
      { rewrite Hlog, Hd. apply elem_of_app. right. apply list_elem_of_here. }
      destruct (canceled_state_run _ _ fuel' ss _ (Hst Hin)) as (wf' & Hrun' & _ & Hidle).
      rewrite Hrun in Hrun'. injection Hrun' as <-.
      assert (idle_state w1) as Hi.
      { unfold idle_state. split.
        - apply no_uncanceled_filter in Hnone. unfold queue_matches_log in Hqm.
          rewrite Hnone in Hqm. by apply nil_length_inv.
        - rewrite Hlog. apply Forall_app. split; [|by repeat constructor].
          eapply Forall_impl; [exact Hlk|]. intros e [He _]. by destruct e. }
      destruct (Hidle Hi) as [_ Hact]. rewrite Forall_forall in Hact.
      intros Ha. by apply Hact in Ha.
Qed.

Lemma cancellation_skips_action_witness :
  ∃ w1 wf,
    connectedCallback 1 (sample_element [canceling_listener]) = Some w1
    ∧ run 0 [Microtasks; AnimationFrame] w1 = Some wf
    ∧ (∀ p a, ActionInvoked p a ∉ log wf)
    ∧ RemoveCalled ∈ log wf
    ∧ isConnected wf = false.
Proof.
  pose proof (cancellation_skips_action sample_attributes (Some (Template "Hi"))
                sample_html [canceling_listener] sample_actions {[ "messages" ]} false)
    as [Hreturns Hcanceled].
  destruct Hreturns as (w1 & Hcc & Hlog).
  { apply (bool_decide_unpack _). vm_compute. exact I. }
  { apply (bool_decide_unpack _). vm_compute. exact I. }
  { apply (bool_decide_unpack _). vm_compute. exact I. }
  assert (BeforeStreamRender 1 true ∈ log w1) as Hin
    by (rewrite Hlog; apply list_elem_of_here).
  destruct (Hcanceled 1 w1 Hcc 0 [Microtasks; AnimationFrame])
    as (wf & Hrun & _ & Hattached & Hnone).
  destruct (Hattached Hin) as (_ & _ & Hremoved).
  exists w1, wf. split_and!; [exact Hcc | exact Hrun | | |].
  - apply Hnone. intros p Hp. rewrite Hlog in Hp.
    apply list_elem_of_singleton in Hp. discriminate Hp.
  - apply Hremoved, list_elem_of_here.
  - apply Hremoved, list_elem_of_here.
Defined.

(** ** The attachment pipeline to its end *)

Lemma run_to_completion_run fuel w :
  run fuel [Microtasks; AnimationFrame; Microtasks] w = Some (run_to_completion w).
Proof. done. Qed.

(** C4.  [connectedCallback] gets to its await when every listener that calls
    [render] is registered once.  Whenever it has got there, run the host to
    completion: the awaited render (activation 1) is settled, fulfilled when
    its dispatch was canceled and otherwise with what action resolution and
    the handler came to; the console reports and removals in the log are then
    exactly one report of the error, if the render was rejected, followed by
    one call of [remove]; the promise of [connectedCallback] (activation 0)
    is fulfilled also when [remove] threw, and the element is out of the
    document unless [remove] threw. *)
Theorem attachment_always_cleans_up
    (attrs : gmap string string) (child : option Child) (html : string)
    (ls : list Listener) (actions : gmap string Handler) (doc_ids : gset string)
    (rm_throws : bool) :
  let w0 := createElement attrs child html ls actions doc_ids rm_throws in
  (Forall once_if_reentrant ls → is_Some (connectedCallback (S (length ls)) w0))
  ∧ ∀ fuel w1,
      connectedCallback fuel w0 = Some w1 →
      let wf := run_to_completion w1 in
      ∃ d : bool,
        BeforeStreamRender 1 d ∈ log w1
        ∧ promises wf !! 1 =
            Some (if d then Fulfilled else outcome (action_result w0))
        ∧ List.filter is_cleanup (log wf) =
            match (if d then Fulfilled else outcome (action_result w0)) with
            | Rejected e => [ConsoleError e; RemoveCalled]
            | _ => [RemoveCalled]
            end
        ∧ promises wf !! 0 = Some Fulfilled
        ∧ awaiting wf = []
        ∧ isConnected wf = rm_throws.
Proof.
  intros w0. split.
  - apply connectedCallback_returns.
  - intros fuel w1 Hcc.
    destruct (connectedCallback_first _ _ _ _ _ _ _ _ _ Hcc) as (wl & d & Hre & ->).
    destruct Hre as (Hsame & Hconn & Haw & Hlen & Hold & (q & Hq & Hqk)
                     & (l & Hl & Hlk) & _).
    simpl in Hconn, Haw, Hq, Hl, Hlen.
    assert (List.filter is_cleanup l = []) as Hlc.
    { apply dispatches_no_cleanup. eapply Forall_impl; [exact Hlk|]. by intros e [He _]. }
    exists d. destruct d.
    + (* the dispatch was canceled *)
      set (w1 := set_awaiting _ _) in *.
      assert (canceled_state rm_throws false w1) as Hst.
      { unfold canceled_state, w1. simpl. split_and!; try done.
        - apply list_lookup_insert_eq. lia.
        - by rewrite Hq.
        - by destruct Hsame as (_ & _ & _ & _ & _ & ->).
        - rewrite Hl. apply Forall_app. split; [|by repeat constructor].
          by apply (is_silent_dispatches 2).
        - rewrite Hl, List.filter_app, Hlc. done. }
      destruct (canceled_state_run _ _ 0 [Microtasks; AnimationFrame; Microtasks] _ Hst)
        as (wf & Hrun & Hf & _).
      rewrite run_to_completion_run in Hrun. injection Hrun as <-.
      destruct Hf as (_ & Hp & _ & _ & _ & Ha & Hcl & H0 & Hc).
      split_and!; try done.
      unfold w1. simpl. rewrite Hl. apply elem_of_app. right. apply list_elem_of_here.
    + (* the render was suspended until the animation frame *)
      simpl negb. unfold after_dispatch.
      set (w1 := set_awaiting _ _) in *.
      assert (promises w1 !! 1 = Some Pending) as Hp1.
      { unfold w1. simpl. by rewrite Hold by lia. }
      assert (promises w1 !! 0 = Some Pending) as Hp0.
      { unfold w1. simpl. by rewrite Hold by lia. }
      assert (same_element w0 w1) as Hs1.
      { unfold w1. eapply same_element_trans; [|exact Hsame]. done. }
      assert (microtasks w1 = w1) as Hm1.
      { rewrite (microtasks_single w1 (1, 0)) by done.
        unfold resume_connectedCallback. simpl. by rewrite Hold by lia. }
      unfold run_to_completion. rewrite Hm1, animationFrame_spec.
      rewrite (action_result_same _ _ Hs1).
      set (r := action_result w0). set (w2 := set_log _ _).
      assert (promises w2 !! 1 = Some (outcome r)) as Hq1.
      { unfold w2, w1. simpl. apply settle_all_member; [|lia].
        rewrite Hq. apply elem_of_app. right. apply list_elem_of_here. }
      assert (promises w2 !! 0 = Some Pending) as Hq0.
      { unfold w2. simpl. rewrite settle_all_other; [done|].
        unfold w1. simpl. rewrite Hq. intros Hin.
        apply elem_of_app in Hin as [Hin|Hin].
        - rewrite Forall_forall in Hqk. apply Hqk in Hin. lia.
        - by apply list_elem_of_singleton in Hin. }
      assert (List.filter is_cleanup (log w2) = []) as Hc2.
      { unfold w2, w1. simpl. rewrite Hl, !List.filter_app, Hlc.
        by rewrite action_calls_no_cleanup. }
      rewrite (microtasks_single w2 (1, 0)) by done.
      unfold resume_connectedCallback. simpl fst. simpl snd.
      assert (promises (set_awaiting [] w2) !! 1 = Some (outcome r)) as -> by exact Hq1.
      assert (remove_throws w2 = rm_throws) as Hrm
        by (destruct Hsame as (_ & _ & _ & _ & _ & Hrt); exact Hrt).
      assert (isConnected w2 = true) as Hic by exact Hconn.
      assert (0 < length (promises w2)) as Hlen0 by (by apply lookup_lt_Some in Hq0).
      clearbody w2. split.
      { unfold w1. simpl. rewrite Hl. apply elem_of_app. right. apply list_elem_of_here. }
      destruct (outcome r) as [| |e] eqn:Hout.
      * by destruct r.
      * rewrite disconnect_spec. simpl. rewrite Hrm, Hic.
        split_and!.
        -- rewrite list_lookup_insert_ne by done. by rewrite Hq1.
        -- by rewrite List.filter_app, Hc2.
        -- by apply list_lookup_insert_eq.
        -- done.
        -- by destruct rm_throws.
      * rewrite disconnect_spec. simpl. rewrite Hrm, Hic.
        split_and!.
        -- rewrite list_lookup_insert_ne by done. by rewrite Hq1.
        -- rewrite <- app_assoc, List.filter_app, Hc2. done.
        -- by apply list_lookup_insert_eq.
        -- done.
        -- by destruct rm_throws.
Qed.

Lemma attachment_always_cleans_up_witness :
  ∃ w1,
    connectedCallback 1 (div_child_element []) = Some w1
    ∧ List.filter is_cleanup (log (run_to_completion w1))
      = [ConsoleError (template_error (div_child_element [])); RemoveCalled]
    ∧ isConnected (run_to_completion w1) = false.
Proof.
  pose proof (attachment_always_cleans_up sample_attributes (Some (Other "div"))
                sample_html [] sample_actions {[ "messages" ]} false)
    as [Hreturns Hends].
  destruct Hreturns as (w1 & Hcc).
  { constructor. }
  exists w1. split; [exact Hcc|].
  destruct (Hends 1 w1 Hcc) as (d & Hd & _ & Hlog & _ & _ & Hconn).
  assert (d = false) as ->.
  { vm_compute in Hcc. injection Hcc as <-. simpl in Hd.
    apply list_elem_of_singleton in Hd. by injection Hd. }
  split; [exact Hlog | exact Hconn].
Defined.

(** ** A canceled render, called directly *)





(** ** [description] *)

Lemma string_app_cons c a b : String c a +:+ b = String c (a +:+ b).
Proof. reflexivity. Qed.

Lemma string_app_assoc a b c : (a +:+ b) +:+ c = a +:+ (b +:+ c).
Proof.
  induction a as [|x a IH]; [done|]. by rewrite !string_app_cons, IH.
Qed.

Lemma span_not_gt_spec s a b :
  span_not_gt s = (a, b) →
  s = a +:+ b ∧ (b = EmptyString ∨ ∃ r, b = String ">" r).
Proof.
  revert a b. induction s as [|c s IH]; intros a b H; simpl in H.
  - injection H as <- <-. split; [done | by left].
  - destruct (is_gt c) eqn:Hc.
    + injection H as <- <-. split; [done|]. right. exists s.
      unfold is_gt in Hc. apply Ascii.eqb_eq in Hc. by rewrite Hc.
    + destruct (span_not_gt s) as [a' b'] eqn:E. injection H as <- <-.
      destruct (IH _ _ eq_refl) as [-> Hb]. split; [done | exact Hb].
Qed.

Lemma match_tag_body_spec s body :
  match_tag_body s = Some body →
  ∃ c a rest, body = String c a +:+ ">" ∧ s = body +:+ rest.
Proof.
  unfold match_tag_body. destruct (span_not_gt s) as [a b] eqn:E.
  destruct a as [|c a]; [done|]. destruct b as [|x b]; [done|].
  intros [= <-]. apply span_not_gt_spec in E as [-> [Hb | [r Hb]]]; [done|].
  injection Hb as -> ->. exists c, a, r. split; [done|].
  by rewrite string_app_assoc.
Qed.

(** The match is a part of the string, opens with [<], closes with [>], and
    has something in between. *)
Lemma first_tag_spec s tag :
  first_tag s = Some tag →
  ∃ pre c a post, tag = String "<" (String c a +:+ ">") ∧ s = pre +:+ tag +:+ post.
Proof.
  induction s as [|x s IH]; intros H; simpl in H; [done|].
  assert (first_tag s = Some tag →
          ∃ pre c a post, tag = String "<" (String c a +:+ ">")
                          ∧ String x s = pre +:+ tag +:+ post) as Hrec.
  { intros Hs. destruct (IH Hs) as (pre & c & a & post & Ht & ->).
    by exists (String x pre), c, a, post. }
  destruct (is_lt x) eqn:Hx; [|by apply Hrec].
  destruct (match_tag_body s) as [body|] eqn:Hb; [|by apply Hrec].
  injection H as <-. apply match_tag_body_spec in Hb as (c & a & rest & -> & ->).
  unfold is_lt in Hx. apply Ascii.eqb_eq in Hx as ->.
  by exists EmptyString, c, a, rest.
Qed.

Lemma description_spec w :
  description w = "<turbo-stream>"
  ∨ ∃ pre c a post,
      description w = String "<" (String c a +:+ ">")
      ∧ outerHTML w = pre +:+ description w +:+ post.
Proof.
  unfold description. destruct (first_tag (outerHTML w)) as [tag|] eqn:E; [|by left].
  right. simpl. by apply first_tag_spec.
Qed.

(** ** Action resolution *)

(** C5, as the wording has it: an [action] attribute that is present and
    empty is no key of the registry, yet the error is not "unknown action". *)
Lemma empty_action_is_reported_missing :
  action empty_action_element = Some EmptyString
  ∧ StreamActions empty_action_element !! EmptyString = None
  ∧ performAction empty_action_element
    = Raise (description empty_action_element +:+ ": " +:+ "action attribute is missing")
  ∧ ¬ resolves_by_presence empty_action_element.
Proof.
  split_and!; [done | done | done |].
  intros (_ & H & _). specialize (H EmptyString eq_refl eq_refl).
  vm_compute in H. discriminate H.
Qed.

(** C5, amended.  With no [action] attribute, or an empty one, the getter
    raises "action attribute is missing"; with a non-empty one that the
    registry does not know it raises "unknown action", another message; with
    one that the registry knows it returns the registered handler, which is
    then called on the element.  An error of the getter rejects the render
    without any handler call.  Each message starts with the description of
    the element, which is [<turbo-stream>] or the first tag found in the
    element's serialization. *)
Theorem action_resolution (w : World) :
  (action w = None ∨ action w = Some EmptyString →
     performAction w = Raise (description w +:+ ": " +:+ "action attribute is missing"))
  ∧ (∀ a, action w = Some a → a ≠ EmptyString → StreamActions w !! a = None →
       performAction w = Raise (description w +:+ ": " +:+ "unknown action"))
  ∧ (∀ a h, action w = Some a → a ≠ EmptyString → StreamActions w !! a = Some h →
       performAction w = Ok h
       ∧ ∀ p, call_performAction p w = (emit (ActionInvoked p a) w, run_handler h w))
  ∧ (∀ p e, performAction w = Raise e → p < length (promises w) →
       promises (resume_render p w) !! p = Some (Rejected e)
       ∧ log (resume_render p w) = log w)
  ∧ description w +:+ ": " +:+ "action attribute is missing"
    ≠ description w +:+ ": " +:+ "unknown action"
  ∧ (description w = "<turbo-stream>"
     ∨ ∃ pre c a post,
         description w = String "<" (String c a +:+ ">")
         ∧ outerHTML w = pre +:+ description w +:+ post).
Proof.
  split_and!.
  - intros H. unfold performAction, raise. by destruct H as [-> | ->].
  - intros a Ha Hne Hreg. unfold performAction, raise. rewrite Ha. simpl default.
    by rewrite (proj2 (FrameProps.truthy_Some a) Hne), Hreg.
  - intros a h Ha Hne Hreg.
    assert (performAction w = Ok h) as Hp.
    { unfold performAction. rewrite Ha. simpl default.
      by rewrite (proj2 (FrameProps.truthy_Some a) Hne), Hreg. }
    split; [done|]. intros p. unfold call_performAction. rewrite Hp, Ha. simpl default.
    f_equal. by apply run_handler_same.
  - intros p e He Hp. rewrite resume_render_spec.
    unfold action_result, action_calls. rewrite He. simpl. split.
    + by apply list_lookup_insert_eq.
    + by rewrite app_nil_r.
  - intros H. apply (inj (String.app (description w))) in H. discriminate H.
  - apply description_spec.
Qed.

Lemma action_resolution_witness :
  performAction (sample_element []) = Ok append_action
  ∧ performAction empty_action_element
    = Raise ("<turbo-stream action=" +:+ quoted EmptyString +:+ ">: action attribute is missing").
Proof.
  split.
  - apply (action_resolution (sample_element [])) with (a := "append"); done.
  - rewrite (proj1 (action_resolution empty_action_element)); [done | by right].
Defined.

(** ** A first child that is no template *)

Lemma templateElement_not_template w :
  (∀ content, firstElementChild w ≠ Some (Template content)) →
  templateElement w = Raise (template_error w).
Proof.
  intros H. unfold templateElement, template_error, raise.
  destruct (firstElementChild w) as [[content|tag]|]; [|done..]. by destruct (H content).
Qed.

Lemma run_handler_reads_template h w :
  (∀ content, firstElementChild w ≠ Some (Template content)) →
  reads_template h w = true →
  run_handler h w = Raise (template_error w).
Proof.
  intros Hc. induction h as [| |k IH|k IH|k IH]; simpl; try done.
  - destruct (targetElement w); [apply IH | done].
  - intros _. by rewrite templateElement_not_template.
  - intros _. unfold templateContent. by rewrite templateElement_not_template.
Qed.

(** A handler that does not come to read the template does the same whatever
    the first child is. *)
Lemma run_handler_without_template h w w' :
  attributes w' = attributes w → outerHTML w' = outerHTML w → ids w' = ids w →
  reads_template h w = false →
  run_handler h w' = run_handler h w.
Proof.
  intros Ha Ho Hi.
  assert (targetElement w' = targetElement w) as Ht.
  { unfold targetElement, target, getAttribute, raise, description.
    by rewrite Ha, Ho, Hi. }
  induction h as [| |k IH|k IH|k IH]; simpl; try done.
  rewrite Ht. destruct (targetElement w); [apply IH | done].
Qed.

(** C8.  Let the first child of a new element be no template.  The getter
    [templateElement] raises the error "first child element must be a
    <template> element".  A render returns when every listener that calls
    [render] is registered once; whenever it returns, its dispatch is the
    last thing logged, the
    log holds dispatches only, and no promise is rejected: nothing has failed
    by then.  If the dispatch was not canceled, the promise is settled at the
    animation frame with what action resolution and the handler come to.  For
    the registered handler that is the template error when its run reads the
    template, and when its run does not read the template it is what the same
    element with a template for first child would give. *)
Theorem missing_template_fails_only_when_read
    (attrs : gmap string string) (child : option Child) (html : string)
    (ls : list Listener) (actions : gmap string Handler) (doc_ids : gset string)
    (rm_throws : bool) :
  let w0 := createElement attrs child html ls actions doc_ids rm_throws in
  (∀ content, child ≠ Some (Template content)) →
  templateElement w0 = Raise (template_error w0)
  ∧ (Forall once_if_reentrant ls → is_Some (render (S (length ls)) w0))
  ∧ (∀ fuel w1 p,
       render fuel w0 = Some (w1, p) →
       (∃ d, last (log w1) = Some (BeforeStreamRender p d))
       ∧ Forall (λ e, is_dispatch e = true) (log w1)
       ∧ Forall (λ st, not_rejected st = true) (promises w1)
       ∧ (BeforeStreamRender p false ∈ log w1 →
            promises w1 !! p = Some Pending
            ∧ promises (animationFrame w1) !! p = Some (outcome (action_result w0))))
  ∧ (∀ h, performAction w0 = Ok h →
       (reads_template h w0 = true → action_result w0 = Raise (template_error w0))
       ∧ (reads_template h w0 = false → ∀ content,
            action_result w0 =
            action_result
              (createElement attrs (Some (Template content)) html ls actions
                 doc_ids rm_throws))).
Proof.
  intros w0 Hchild. split_and!.
  - by apply templateElement_not_template.
  - intros Hok. apply render_returns; [done | simpl; lia].
  - intros fuel w1 p Hr.
    apply render_first in Hr as (-> & wl & d & Hre & ->); [|done].
    destruct Hre as (Hsame & Hconn & Haw & Hlen & Hold & (q & Hq & Hqk)
                     & (l & Hl & Hlk) & Hnrej).
    simpl in Hconn, Haw, Hq, Hl, Hlen, Hold, Hnrej.
    assert (Forall (λ st, not_rejected st = true) (promises wl)) as Hrej
      by (apply Hnrej; by repeat constructor).
    set (w1 := set_renderPromise _ _).
    assert (log w1 = l ++ [BeforeStreamRender 0 d]) as Hlog.
    { unfold w1. destruct d; simpl; by rewrite Hl. }
    rewrite Hlog. split_and!.
    + exists d. apply last_snoc.
    + apply Forall_app. split; [|by repeat constructor].
      eapply Forall_impl; [exact Hlk|]. by intros e [He _].
    + unfold w1. destruct d; simpl; [|done]. by apply Forall_insert.
    + intros Hin.
      assert (d = false) as Hd.
      { apply elem_of_app in Hin as [Hin|Hin].
        - rewrite Forall_forall in Hlk. destruct (Hlk _ Hin) as (_ & i & [= <-] & Hi). lia.
        - apply list_elem_of_singleton in Hin. by injection Hin. }
      unfold w1. rewrite Hd. simpl negb. unfold after_dispatch. split.
      * simpl. by rewrite Hold by lia.
      * rewrite animationFrame_spec. simpl. rewrite settle_all_member.
        -- rewrite (action_result_same w0); [done|].
           eapply same_element_trans; [|exact Hsame]. done.
        -- rewrite Hq. apply elem_of_app. right. apply list_elem_of_here.
        -- simpl in *. lia.
  - intros h Hh. unfold action_result. rewrite Hh. split.
    + by apply run_handler_reads_template.
    + intros Hno content.
      assert (performAction (createElement attrs (Some (Template content)) html ls
                               actions doc_ids rm_throws) = Ok h) as -> by exact Hh.
      symmetry. by apply run_handler_without_template.
Qed.

Lemma missing_template_fails_only_when_read_witness :
  templateElement (div_child_element [])
  = Raise (template_error (div_child_element []))
  ∧ action_result (div_child_element [])
    = Raise (template_error (div_child_element [])).
Proof.
  assert (∀ content, Some (Other "div") ≠ Some (Template content)) as H by done.
  pose proof (missing_template_fails_only_when_read sample_attributes
                (Some (Other "div")) sample_html [] sample_actions {[ "messages" ]}
                false H) as (Ht & _ & _ & Hh).
  split; [exact Ht|].
  apply (Hh append_action); reflexivity.
Defined.

(** ** Calls of [render] after the first has returned *)

(** Once a call of [render] has returned, every further call returns the same
    promise and leaves the world as it is. *)
Lemma render_repeated fuel w w1 p :
  render fuel w = Some (w1, p) → ∀ fuel', render fuel' w1 = Some (w1, p).
Proof. intros H fuel'. apply render_cached. by eapply render_stores. Qed.

(** C1, at a listener registered once that calls [event.target.render()]:
    the call of [render] made by [connectedCallback] finds no stored promise,
    and neither does the call made by the listener during the dispatch.  The
    event is dispatched twice, two activations are suspended, and the
    handler is called twice at the animation frame. *)
Theorem render_from_listener_renders_twice :
  let w0 := sample_element [rendering_listener] in
  ∃ w1, connectedCallback 2 w0 = Some w1
    ∧ log w1 = [BeforeStreamRender 2 false; BeforeStreamRender 1 false]
    ∧ frame_queue w1 = [2; 1]
    ∧ renderPromise w1 = Some 1
    ∧ log (run_to_completion w1) =
        [BeforeStreamRender 2 false; BeforeStreamRender 1 false;
         ActionInvoked 2 "append"; ActionInvoked 1 "append"; RemoveCalled].
Proof. eexists. split; [vm_compute; reflexivity|]. vm_compute. done. Qed.

End StreamProps.

(** * More on the frame element *)

Module FrameMore.
Import Frame FrameEvents FrameProps.

Lemma isActive_setAttribute name value w :
  isActive (setAttribute name value w) = isActive w.
Proof.
  unfold setAttribute, react. case_bool_decide; [|done].
  unfold attributeChangedCallback.
  destruct (truthy _ && isActive _); [|done]. by destruct (src _).
Qed.

Lemma isActive_removeAttribute name w :
  isActive (removeAttribute name w) = isActive w.
Proof.
  unfold removeAttribute. destruct (attributes w !! name); [|done].
  unfold react. case_bool_decide; [|done].
  unfold attributeChangedCallback.
  destruct (truthy _ && isActive _); [|done]. by destruct (src _).
Qed.

(** X1.  Assigning a non-empty string to the [src] property of an active
    frame calls [controller.visit] with it, once, and makes [loaded] the
    promise that call returned; on an inactive frame it only writes the
    attribute.  Assigning [null] or the empty string never reaches the
    controller, nor [loaded], and does nothing at all when there is no [src]
    attribute. *)
Theorem src_property_reaches_controller (w : World) (value : string) :
  (value ≠ EmptyString → isActive w = true →
     calls (set_src (Some value) w) = calls w ++ [Visit value]
     ∧ results (set_src (Some value) w) = results w ++ [Pending]
     ∧ loaded (set_src (Some value) w) = VisitResult (length (results w)))
  ∧ (value ≠ EmptyString → isActive w = false →
     set_src (Some value) w = set_attributes (<["src" := value]> (attributes w)) w)
  ∧ (∀ empty, empty = None ∨ empty = Some EmptyString →
       set_src empty w = set_attributes (delete "src" (attributes w)) w
       ∧ (src w = None → set_src empty w = w)).
Proof.
  split_and!.
  - intros Hne Hact. unfold set_src. rewrite (proj2 (truthy_Some value) Hne).
    by rewrite setAttribute_src_accepted.
  - intros Hne Hact. unfold set_src. rewrite (proj2 (truthy_Some value) Hne).
    apply setAttribute_src_ignored. intros [_ H]. congruence.
  - intros empty Hempty.
    assert (set_src empty w = removeAttribute "src" w) as ->
      by (by destruct Hempty as [-> | ->]).
    split; [apply removeAttribute_src|].
    intros Hsrc. unfold removeAttribute. unfold src, getAttribute in Hsrc.
    by rewrite Hsrc.
Qed.

Lemma src_property_reaches_controller_witness :
  calls (set_src (Some "/inbox") live_frame) = [Visit "/inbox"]
  ∧ set_src (Some "/inbox") preview_frame
    = set_attributes (<["src" := "/inbox"]> (attributes preview_frame)) preview_frame.
Proof.
  destruct (src_property_reaches_controller live_frame "/inbox") as (Hactive & _ & _).
  destruct (src_property_reaches_controller preview_frame "/inbox") as (_ & Hinactive & _).
  split.
  - apply Hactive; [discriminate | vm_compute; reflexivity].
  - apply Hinactive; [discriminate | vm_compute; reflexivity].
Defined.

(** X2.  The reaction does not compare the new value of [src] with the old
    one: writing the value that is already there to an active frame makes the
    controller visit again, and [loaded] moves on to the new promise. *)
Theorem same_src_visits_again (w : World) (value : string) :
  value ≠ EmptyString → isActive w = true →
  let w1 := setAttribute "src" value w in
  let w2 := setAttribute "src" value w1 in
  attributes w2 = attributes w1
  ∧ calls w2 = calls w ++ [Visit value; Visit value]
  ∧ loaded w1 = VisitResult (length (results w))
  ∧ loaded w2 = VisitResult (S (length (results w))).
Proof.
  intros Hne Hact. simpl.
  assert (isActive (setAttribute "src" value w) = true) as Hact1
    by (by rewrite isActive_setAttribute).
  rewrite (setAttribute_src_accepted (setAttribute "src" value w)) by done.
  rewrite (setAttribute_src_accepted w) by done.
  unfold loaded. simpl. split_and!.
  - by rewrite insert_insert_eq.
  - by rewrite <- app_assoc.
  - done.
  - rewrite length_app. simpl. f_equal. lia.
Qed.

Lemma same_src_visits_again_witness :
  calls (setAttribute "src" "/inbox" (setAttribute "src" "/inbox" live_frame))
  = [Visit "/inbox"; Visit "/inbox"].
Proof.
  apply (same_src_visits_again live_frame "/inbox");
    [discriminate | vm_compute; reflexivity].
Defined.

(** What a write or a removal of an attribute can add to the controller's
    calls: nothing, or one visit of the non-empty value written. *)
Lemma setAttribute_calls name value w :
  calls (setAttribute name value w) = calls w
  ∨ (value ≠ EmptyString ∧ calls (setAttribute name value w) = calls w ++ [Visit value]).
Proof.
  destruct (decide (name = "src")) as [->|Hne].
  - destruct (decide (value ≠ EmptyString ∧ isActive w = true)) as [[Hv Ha]|Hn].
    + right. split; [done|]. by rewrite setAttribute_src_accepted.
    + left. by rewrite setAttribute_src_ignored.
  - left. by rewrite setAttribute_other.
Qed.

Lemma removeAttribute_calls name w : calls (removeAttribute name w) = calls w.
Proof.
  destruct (decide (name = "src")) as [->|Hne].
  - by rewrite removeAttribute_src.
  - by rewrite removeAttribute_other.
Qed.

Lemma step_calls s w :
  (∃ c, forwarded (Host s) = Some c ∧ calls (step s w) = calls w ++ [c])
  ∨ (forwarded (Host s) = None
     ∧ (calls (step s w) = calls w
        ∨ ∃ value, value ≠ EmptyString ∧ calls (step s w) = calls w ++ [Visit value])).
Proof.
  destruct s as [name value|name|value|value|value|doc name value|doc name|doc|n st| |];
    simpl; try (right; split; [done|]); try (by left).
  - destruct (setAttribute_calls name value w) as [H|[Hv H]]; [by left|].
    right. by exists value.
  - left. apply removeAttribute_calls.
  - unfold set_src. destruct (truthy value) eqn:Ht.
    + destruct value as [v|]; [|by left].
      destruct (setAttribute_calls "src" v w) as [H|[Hv H]]; [by left|].
      right. by exists v.
    + left. apply removeAttribute_calls.
  - destruct value; simpl.
    + destruct (setAttribute_calls "disabled" EmptyString w) as [H|[Hv H]]; [by left | done].
    + left. apply removeAttribute_calls.
  - destruct value; simpl.
    + destruct (setAttribute_calls "autoscroll" EmptyString w) as [H|[Hv H]]; [by left | done].
    + left. apply removeAttribute_calls.
  - left. by eexists.
  - left. by eexists.
Qed.

Lemma handle_calls e w :
  (∃ c, forwarded e = Some c ∧ calls (handle e w) = calls w ++ [c])
  ∨ (forwarded e = None
     ∧ (calls (handle e w) = calls w
        ∨ ∃ value, value ≠ EmptyString ∧ calls (handle e w) = calls w ++ [Visit value])).
Proof.
  destruct e as [s|element submitter]; [apply step_calls|].
  left. by eexists.
Qed.

Lemma forwarded_not_visit e c : forwarded e = Some c → ∀ url, c ≠ Visit url.
Proof.
  intros H url ->. destruct e as [[]|]; simpl in H; discriminate H.
Qed.

(** X3.  Whatever reaches a newly created frame, in whatever order, the
    controller is never asked to visit the empty string. *)
Theorem never_visits_empty_url
    (attrs : gmap string string) (owner live : nat)
    (roots : gmap nat (gmap string string)) (es : list Event) :
  Forall (λ url, url ≠ EmptyString)
    (visits (handle_all es (createElement attrs owner live roots))).
Proof.
  unfold handle_all.
  assert (Forall (λ url, url ≠ EmptyString)
            (visits (createElement attrs owner live roots))) as H by constructor.
  revert H. generalize (createElement attrs owner live roots) as w.
  induction es as [|e es IH]; intros w H; [done|].
  simpl. apply IH. unfold visits in *.
  destruct (handle_calls e w) as [(c & Hc & ->)|[_ [-> | (v & Hv & ->)]]].
  - rewrite omap_app. simpl.
    destruct c; try (by rewrite app_nil_r).
    by destruct (forwarded_not_visit _ _ Hc url).
  - done.
  - rewrite omap_app. simpl. apply Forall_app. split; [done|]. by constructor.
Qed.

(** X5.  Attachment, detachment and intercepted form submissions are passed
    on to the controller as they come, in order and whatever the state of
    the frame (inactive, disabled, without [src]); nothing else that reaches
    the frame makes a controller call other than a visit. *)
Theorem lifecycle_is_delegated (es : list Event) (w : World) :
  delegated (handle_all es w) = delegated w ++ omap forwarded es.
Proof.
  unfold handle_all. revert w.
  induction es as [|e es IH]; intros w; simpl; [by rewrite app_nil_r|].
  rewrite IH. unfold delegated.
  destruct (handle_calls e w) as [(c & Hc & ->)|[Hc [-> | (v & Hv & ->)]]]; rewrite Hc.
  - rewrite omap_app, <- app_assoc. simpl.
    destruct c; try done. by destruct (forwarded_not_visit _ _ Hc url).
  - done.
  - rewrite omap_app. simpl. by rewrite app_nil_r.
Qed.

(** Steps that leave [src] alone, take it away or empty it make no visit. *)
Lemma run_without_visit later w :
  Forall (λ s, changes_src s = false ∨ s = RemoveAttribute "src"
               ∨ s = SetSrc None ∨ s = SetSrc (Some EmptyString)
               ∨ s = SetAttribute "src" EmptyString) later →
  visits (run later w) = visits w.
Proof.
  unfold run. revert w.
  induction later as [|s later IH]; intros w Hlater; [done|].
  inversion Hlater as [|? ? Hs Hrest]; subst. cbn [foldl]. rewrite (IH _ Hrest).
  destruct Hs as [Hs|[->|[->|[->| ->]]]].
  - by apply step_without_src_change.
  - change (step (RemoveAttribute "src") w) with (removeAttribute "src" w).
    by rewrite removeAttribute_src.
  - change (step (SetSrc None) w) with (removeAttribute "src" w).
    by rewrite removeAttribute_src.
  - change (step (SetSrc (Some EmptyString)) w) with (removeAttribute "src" w).
    by rewrite removeAttribute_src.
  - change (step (SetAttribute "src" EmptyString) w)
      with (setAttribute "src" EmptyString w).
    rewrite setAttribute_src_ignored; [done|]. by intros [? _].
Qed.

(** X4.  On a newly created frame driven by any steps, the controller has
    handed out as many promises as it was asked for visits, and once there
    was a visit [loaded] is the promise of the latest one, a promise of the
    controller; removing [src], writing an empty [src] or leaving the live
    document never puts the resolved default back. *)
Theorem loaded_is_never_reset
    (attrs : gmap string string) (owner live : nat)
    (roots : gmap nat (gmap string string)) (ss : list Step) :
  let w := run ss (createElement attrs owner live roots) in
  let n := length (visits w) in
  length (results w) = n
  ∧ (n ≠ 0 → loaded w = VisitResult (n - 1) ∧ is_Some (results w !! (n - 1)))
  ∧ (n ≠ 0 → ∀ later,
       Forall (λ s, changes_src s = false ∨ s = RemoveAttribute "src"
                    ∨ s = SetSrc None ∨ s = SetSrc (Some EmptyString)
                    ∨ s = SetAttribute "src" EmptyString) later →
       loaded (run later w) = loaded w).
Proof.
  simpl. set (w := run ss _).
  assert (loaded_tracks_visits w) as Hw.
  { apply run_tracks. by unfold loaded_tracks_visits. }
  pose proof Hw as [Hlen Hown].
  split_and!.
  - done.
  - intros Hn. destruct (length (visits w)) as [|n] eqn:E; [done|].
    unfold loaded. rewrite Hown. simpl. rewrite Nat.sub_0_r. split; [done|].
    apply lookup_lt_is_Some. lia.
  - intros Hn later Hlater.
    pose proof (run_without_visit later w Hlater) as Hsame.
    assert (loaded_tracks_visits (run later w)) as [_ Hown'] by (by apply run_tracks).
    unfold loaded. by rewrite Hown', Hown, Hsame.
Qed.

Lemma loaded_is_never_reset_witness :
  loaded (run [SetSrc (Some "/inbox"); SetSrc None; Adopt 1] live_frame) = VisitResult 0.
Proof.
  destruct (loaded_is_never_reset ∅ 0 0 {[ 0 := ∅ ]}
              [SetSrc (Some "/inbox"); SetSrc None; Adopt 1]) as (_ & Hloaded & _).
  apply Hloaded. vm_compute. discriminate.
Defined.

Lemma set_disabled_spec b w :
  set_disabled b w =
    set_attributes
      (if b then <["disabled" := EmptyString]> (attributes w)
       else delete "disabled" (attributes w)) w.
Proof.
  unfold set_disabled. destruct b;
    [by rewrite setAttribute_other | by rewrite removeAttribute_other].
Qed.

Lemma set_autoscroll_spec b w :
  set_autoscroll b w =
    set_attributes
      (if b then <["autoscroll" := EmptyString]> (attributes w)
       else delete "autoscroll" (attributes w)) w.
Proof.
  unfold set_autoscroll. destruct b;
    [by rewrite setAttribute_other | by rewrite removeAttribute_other].
Qed.

(** X6.  Writes of the boolean properties compose as writes of one attribute
    each: the last write of a property wins, writes of [disabled] and of
    [autoscroll] commute, and neither touches [src] or the other property.
    The getters look at presence only: an attribute written with any value,
    the string false included, reads as [true]. *)
Theorem boolean_properties_compose (w : World) (b c : bool) (value : string) :
  set_disabled b (set_disabled c w) = set_disabled b w
  ∧ set_autoscroll b (set_autoscroll c w) = set_autoscroll b w
  ∧ set_disabled b (set_autoscroll c w) = set_autoscroll c (set_disabled b w)
  ∧ src (set_disabled b w) = src w
  ∧ src (set_autoscroll b w) = src w
  ∧ autoscroll (set_disabled b w) = autoscroll w
  ∧ disabled (set_autoscroll b w) = disabled w
  ∧ disabled (setAttribute "disabled" value w) = true
  ∧ autoscroll (setAttribute "autoscroll" value w) = true.
Proof.
  split_and!; rewrite ?set_disabled_spec, ?set_autoscroll_spec;
    unfold src, disabled, autoscroll, getAttribute, hasAttribute, set_attributes;
    cbn [attributes].
  - f_equal. destruct b, c;
      by rewrite ?insert_insert_eq, ?insert_delete_eq, ?delete_insert_eq, ?delete_delete_eq.
  - f_equal. destruct b, c;
      by rewrite ?insert_insert_eq, ?insert_delete_eq, ?delete_insert_eq, ?delete_delete_eq.
  - f_equal. destruct b, c.
    + by apply insert_insert_ne.
    + by apply insert_delete_ne.
    + by apply delete_insert_ne.
    + apply delete_delete.
  - destruct b; [by rewrite lookup_insert_ne | by rewrite lookup_delete_ne].
  - destruct b; [by rewrite lookup_insert_ne | by rewrite lookup_delete_ne].
  - destruct b; [by rewrite lookup_insert_ne | by rewrite lookup_delete_ne].
  - destruct b; [by rewrite lookup_insert_ne | by rewrite lookup_delete_ne].
  - rewrite setAttribute_other by done. cbn [attributes set_attributes].
    rewrite lookup_insert_eq. by apply bool_decide_eq_true.
  - rewrite setAttribute_other by done. cbn [attributes set_attributes].
    rewrite lookup_insert_eq. by apply bool_decide_eq_true.
Qed.

(** X7.  [isActive] is computed from the documents at each reading: writes
    and removals of the element's attributes leave it as it is; a frame that
    is active after adoption has been adopted by the live document; marking
    the root of the owner document as a preview deactivates the frame and
    taking the marker away leaves it active exactly when the owner document
    is the live one, as does an owner document without root; what happens to
    the root of another document is of no account. *)
Theorem isActive_follows_documents (w : World) :
  (∀ name value, isActive (setAttribute name value w) = isActive w)
  ∧ (∀ name, isActive (removeAttribute name w) = isActive w)
  ∧ (∀ doc, isActive (step (Adopt doc) w) = true → doc = document w)
  ∧ (∀ value, is_Some (documentElement w !! ownerDocument w) →
       isActive (step (SetRootAttribute (ownerDocument w) "data-turbo-preview" value) w)
       = false)
  ∧ isActive (step (RemoveRootAttribute (ownerDocument w) "data-turbo-preview") w)
    = bool_decide (ownerDocument w = document w)
  ∧ (documentElement w !! ownerDocument w = None →
       isActive w = bool_decide (ownerDocument w = document w))
  ∧ (∀ doc name value, doc ≠ ownerDocument w →
       isActive (step (SetRootAttribute doc name value) w) = isActive w
       ∧ isActive (step (RemoveRootAttribute doc name) w) = isActive w).
Proof.
  split_and!.
  - intros. apply isActive_setAttribute.
  - intros. apply isActive_removeAttribute.
  - intros doc H. unfold isActive in H. simpl in H.
    apply andb_true_iff in H as [H _]. by apply bool_decide_eq_true in H.
  - intros value [root Hroot]. unfold isActive, isPreview. simpl.
    rewrite lookup_alter_eq, Hroot. simpl. rewrite lookup_insert_eq.
    rewrite (bool_decide_eq_true_2 (is_Some (Some value))) by done.
    by rewrite andb_false_r.
  - unfold isActive, isPreview. simpl. rewrite lookup_alter_eq.
    destruct (documentElement w !! ownerDocument w) as [root|]; simpl.
    + rewrite lookup_delete_eq.
      rewrite (bool_decide_eq_false_2 (is_Some None)) by (by intros []).
      by rewrite andb_true_r.
    + by rewrite andb_true_r.
  - intros H. unfold isActive, isPreview. rewrite H. simpl. by rewrite andb_true_r.
  - intros doc name value Hne. unfold isActive, isPreview. simpl.
    by rewrite !lookup_alter_ne.
Qed.

Lemma isActive_follows_documents_witness :
  isActive (step (SetRootAttribute 0 "data-turbo-preview" EmptyString) live_frame) = false
  ∧ isActive (step (RemoveRootAttribute 0 "data-turbo-preview") preview_frame) = true.
Proof.
  split.
  - apply (isActive_follows_documents live_frame). vm_compute. eauto.
  - apply (isActive_follows_documents preview_frame).
Defined.

End FrameMore.

(** * More on the stream element *)

Module StreamMore.
Import Stream StreamTerms StreamProps.

(** X8.  [targetElement] raises "target attribute is missing" when there is
    no [target] attribute, or an empty one; with a non-empty one it answers
    with the element of that id in the owner document, and an id that is not
    there is an answer, not an error.  A handler that starts by reading the
    target of an element without [target] ends the render with that error. *)
Theorem target_resolution (w : World) :
  (target w = None ∨ target w = Some EmptyString →
     targetElement w = Raise (description w +:+ ": " +:+ "target attribute is missing")
     ∧ ∀ k, performAction w = Ok (ReadTargetElement k) →
         action_result w
         = Raise (description w +:+ ": " +:+ "target attribute is missing"))
  ∧ (∀ id, target w = Some id → id ≠ EmptyString →
       (id ∈ ids w → targetElement w = Ok (Some id))
       ∧ (id ∉ ids w → targetElement w = Ok None)
       ∧ ∀ k, performAction w = Ok (ReadTargetElement k) →
           action_result w
           = run_handler (k (if bool_decide (id ∈ ids w) then Some id else None)) w).
Proof.
  split.
  - intros H.
    assert (targetElement w
            = Raise (description w +:+ ": " +:+ "target attribute is missing")) as Ht.
    { unfold targetElement, raise. by destruct H as [-> | ->]. }
    split; [done|]. intros k Hk. unfold action_result. rewrite Hk. simpl. by rewrite Ht.
  - intros id Hid Hne.
    assert (targetElement w = Ok (if bool_decide (id ∈ ids w) then Some id else None))
      as Ht.
    { unfold targetElement. rewrite Hid. simpl default.
      by rewrite (proj2 (FrameProps.truthy_Some id) Hne). }
    split_and!.
    + intros Hin. by rewrite Ht, bool_decide_eq_true_2.
    + intros Hin. by rewrite Ht, bool_decide_eq_false_2.
    + intros k Hk. unfold action_result. rewrite Hk. simpl. by rewrite Ht.
Qed.

Lemma target_resolution_witness :
  targetElement (sample_element []) = Ok (Some "messages")
  ∧ targetElement empty_action_element
    = Raise (description empty_action_element +:+ ": " +:+ "target attribute is missing").
Proof.
  split.
  - apply (target_resolution (sample_element [])) with (id := "messages");
      [reflexivity | discriminate | vm_compute; reflexivity].
  - apply (target_resolution empty_action_element). by left.
Defined.

(** ** The first tag of the serialization *)

Lemma span_not_gt_body body rest :
  has_gt body = false →
  span_not_gt (body +:+ String ">" rest) = (body, String ">" rest).
Proof.
  induction body as [|c body IH]; intros H.
  - reflexivity.
  - simpl in H. apply orb_false_iff in H as [Hc Hb].
    rewrite string_app_cons. simpl. by rewrite Hc, (IH Hb).
Qed.

Lemma span_not_gt_has_gt s a b : span_not_gt s = (a, b) → has_gt a = false.
Proof.
  revert a b. induction s as [|c s IH]; intros a b H; simpl in H.
  - by injection H as <- <-.
  - destruct (is_gt c) eqn:Hc; [by injection H as <- <-|].
    destruct (span_not_gt s) as [a' b'] eqn:E. injection H as <- <-.
    simpl. by rewrite Hc, (IH _ _ eq_refl).
Qed.

Lemma first_tag_opening body rest :
  body ≠ EmptyString → has_gt body = false →
  first_tag (tag_of body +:+ rest) = Some (tag_of body).
Proof.
  intros Hne Hgt. unfold tag_of.
  change ("<" +:+ body +:+ ">") with (String "<" (body +:+ String ">" EmptyString)).
  rewrite string_app_cons, string_app_assoc.
  change (String ">" EmptyString +:+ rest) with (String ">" rest).
  cbn [first_tag]. change (is_lt "<") with true. cbv iota.
  unfold match_tag_body. rewrite (span_not_gt_body body rest Hgt).
  destruct body as [|c body]; [done|]. reflexivity.
Qed.

Lemma first_tag_holds s tag : first_tag s = Some tag → holds_tag s.
Proof.
  induction s as [|x s IH]; intros H; simpl in H; [done|].
  assert (first_tag s = Some tag → holds_tag (String x s)) as Hrec.
  { intros Hs. destruct (IH Hs) as (pre & body & post & Hne & Hgt & ->).
    by exists (String x pre), body, post. }
  destruct (is_lt x) eqn:Hx; [|by apply Hrec].
  destruct (match_tag_body s) as [m|] eqn:Hm; [|by apply Hrec].
  unfold match_tag_body in Hm. destruct (span_not_gt s) as [a b] eqn:E.
  destruct a as [|c a]; [done|]. destruct b as [|y b]; [done|].
  pose proof (span_not_gt_has_gt _ _ _ E) as Hgt.
  apply span_not_gt_spec in E as [-> [Hb | [r Hb]]]; [done|]. injection Hb as -> ->.
  unfold is_lt in Hx. apply Ascii.eqb_eq in Hx as ->.
  exists EmptyString, (String c a), r. split_and!; [done | done |].
  unfold tag_of.
  change ("<" +:+ String c a +:+ ">")
    with (String "<" (String c a +:+ String ">" EmptyString)).
  change (EmptyString +:+ ?x) with x.
  rewrite (string_app_cons "<"), (string_app_assoc (String c a) ">" r). reflexivity.
Qed.

Lemma holds_tag_first_tag s : holds_tag s → is_Some (first_tag s).
Proof.
  intros (pre & body & post & Hne & Hgt & ->).
  induction pre as [|x pre IH].
  - change (EmptyString +:+ ?x) with x. rewrite first_tag_opening by done. by eexists.
  - rewrite string_app_cons. cbn [first_tag].
    destruct (is_lt x); [|exact IH].
    destruct (match_tag_body _); [by eexists | exact IH].
Qed.

(** X9.  When the serialization of the element begins with its opening tag,
    the description used in error messages is that tag, up to the first [>]:
    a [>] inside an attribute value cuts it short. *)
Theorem description_is_opening_tag (w : World) (body rest : string) :
  body ≠ EmptyString → has_gt body = false →
  outerHTML w = tag_of body +:+ rest →
  description w = tag_of body.
Proof.
  intros Hne Hgt Hhtml. unfold description. rewrite Hhtml.
  by rewrite first_tag_opening.
Qed.

Lemma description_is_opening_tag_witness :
  description (sample_element [])
  = tag_of ("turbo-stream action=" +:+ quoted "append" +:+ " target=" +:+ quoted "messages").
Proof.
  apply (description_is_opening_tag (sample_element []) _
           "<template>Hi</template></turbo-stream>"); [discriminate | | ];
    vm_compute; reflexivity.
Defined.

(** X10.  The description is a tag found in the serialization whenever the
    serialization holds one, and the fixed [<turbo-stream>] exactly when it
    holds none. *)
Theorem description_falls_back_without_tag (w : World) :
  (holds_tag (outerHTML w) →
     ∃ pre body post,
       body ≠ EmptyString ∧ has_gt body = false
       ∧ description w = tag_of body
       ∧ outerHTML w = pre +:+ description w +:+ post)
  ∧ (¬ holds_tag (outerHTML w) ↔ first_tag (outerHTML w) = None)
  ∧ (¬ holds_tag (outerHTML w) → description w = "<turbo-stream>").
Proof.
  assert (¬ holds_tag (outerHTML w) ↔ first_tag (outerHTML w) = None) as Hiff.
  { split.
    - intros Hn. destruct (first_tag (outerHTML w)) as [tag|] eqn:E; [|done].
      destruct Hn. by eapply first_tag_holds.
    - intros Hnone Hh. apply holds_tag_first_tag in Hh as [tag Ht]. congruence. }
  split_and!; [| exact Hiff |].
  - intros Hh. destruct (holds_tag_first_tag _ Hh) as [tag Ht].
    unfold description. rewrite Ht. simpl. clear Hh.
    revert Ht. generalize (outerHTML w) as s.
    induction s as [|x s IH]; intros H; simpl in H; [done|].
    assert (first_tag s = Some tag →
            ∃ pre body post, body ≠ EmptyString ∧ has_gt body = false
              ∧ tag = tag_of body ∧ String x s = pre +:+ tag +:+ post) as Hrec.
    { intros Hs. destruct (IH Hs) as (pre & body & post & Hne & Hgt & Ht & ->).
      by exists (String x pre), body, post. }
    destruct (is_lt x) eqn:Hx; [|by apply Hrec].
    destruct (match_tag_body s) as [m|] eqn:Hm; [|by apply Hrec].
    injection H as <-.
    unfold match_tag_body in Hm. destruct (span_not_gt s) as [a b] eqn:E.
    destruct a as [|c a]; [done|]. destruct b as [|y b]; [done|].
    injection Hm as <-.
    pose proof (span_not_gt_has_gt _ _ _ E) as Hgt.
    apply span_not_gt_spec in E as [-> [Hb | [r Hb]]]; [done|]. injection Hb as -> ->.
    unfold is_lt in Hx. apply Ascii.eqb_eq in Hx as ->.
    exists EmptyString, (String c a), r. split_and!; [done | done | done |].
    change (EmptyString +:+ ?x) with x. unfold tag_of.
    change ("<" +:+ String c a +:+ ">") with (String "<" (String c a +:+ ">")).
    rewrite (string_app_cons "<"), (string_app_assoc (String c a) ">" r). reflexivity.
  - intros Hn. unfold description. by rewrite (proj1 Hiff Hn).
Qed.

(** ** Schedules after the first render *)

Lemma step_keeps_renderPromise fuel s w w' p :
  renderPromise w = Some p → step fuel s w = Some w' → renderPromise w' = Some p.
Proof.
  intros Hp. destruct s; simpl.
  - rewrite (render_cached _ _ p Hp). by intros [= <-].
  - intros [= <-]. by rewrite animationFrame_spec.
  - intros [= <-]. destruct (microtasks_effects w) as (_ & _ & _ & -> & _). done.
Qed.

Lemma run_keeps_renderPromise fuel ss w w' p :
  renderPromise w = Some p → run fuel ss w = Some w' → renderPromise w' = Some p.
Proof.
  revert w. induction ss as [|s ss IH]; intros w Hp H; simpl in H.
  - by injection H as <-.
  - destruct (step fuel s w) as [w1|] eqn:E; [|done].
    eapply IH; [|exact H]. by eapply step_keeps_renderPromise.
Qed.

Lemma action_calls_length w q : length (action_calls w q) ≤ length q.
Proof.
  unfold action_calls. destruct (performAction w); simpl; [|lia].
  by rewrite length_fmap.
Qed.

Lemma action_calls_all_actions w q :
  List.filter is_action (action_calls w q) = action_calls w q.
Proof.
  unfold action_calls. destruct (performAction w); [|done].
  induction q as [|p q IH]; [done|].
  rewrite fmap_cons. cbn [List.filter is_action]. by rewrite IH.
Qed.

Lemma cleanup_no_action l :
  Forall (λ e, is_cleanup e = true) l → List.filter is_action l = [].
Proof. induction 1 as [|e l He _ IH]; [done|]. simpl. by destruct e. Qed.

Lemma dispatches_no_action l :
  Forall (λ e, is_dispatch e = true) l → List.filter is_action l = [].
Proof. induction 1 as [|e l He _ IH]; [done|]. simpl. by destruct e. Qed.

Lemma acts_bounded_step n fuel s w :
  acts_bounded n w → ∃ w', step fuel s w = Some w' ∧ acts_bounded n w'.
Proof.
  intros [Hrp Hn]. destruct s; simpl.
  - destruct (renderPromise w) as [p|] eqn:E; [|done].
    exists w. rewrite (render_cached _ _ p E). split; [done|].
    unfold acts_bounded. by rewrite E.
  - exists (animationFrame w). split; [done|]. rewrite animationFrame_spec.
    unfold acts_bounded. simpl. split; [done|].
    rewrite List.filter_app, length_app, action_calls_all_actions.
    pose proof (action_calls_length w (frame_queue w)). lia.
  - exists (microtasks w). split; [done|].
    destruct (microtasks_effects w) as (l & Hl & Hc & Hr & Hf).
    unfold acts_bounded. rewrite Hl, Hr, Hf. split; [done|].
    by rewrite List.filter_app, (cleanup_no_action _ Hc), app_nil_r.
Qed.

Lemma acts_bounded_run n fuel ss w :
  acts_bounded n w → ∃ w', run fuel ss w = Some w' ∧ acts_bounded n w'.
Proof.
  revert w. induction ss as [|s ss IH]; intros w H; [by exists w|].
  simpl. destruct (acts_bounded_step n fuel s w H) as (w1 & -> & H1). by apply IH.
Qed.

(** What holds when [connectedCallback] has got to its await. *)
Lemma connectedCallback_rendered
    attrs child html ls actions doc_ids rm_throws fuel w1 :
  connectedCallback fuel (createElement attrs child html ls actions doc_ids rm_throws)
    = Some w1 →
  rendered_state (log w1) w1
  ∧ acts_bounded (length (List.filter is_uncanceled (log w1))) w1
  ∧ renderPromise w1 = Some 1.
Proof.
  intros Hcc.
  pose proof (connectedCallback_queue_matches_log _ _ _ _ _ _ _ _ _ Hcc) as Hqm.
  destruct (connectedCallback_first _ _ _ _ _ _ _ _ _ Hcc)
    as (wl & d & (_ & _ & _ & _ & _ & _ & (l & Hl & Hlk) & _) & Hw1).
  assert (Forall (λ e, is_dispatch e = true) (log w1)) as Hd.
  { rewrite Hw1. simpl in Hl.
    assert (log (set_awaiting [(1, 0)]
              (set_renderPromise (Some 1)
                 (after_dispatch 1 (negb d) (emit (BeforeStreamRender 1 d) wl))))
            = l ++ [BeforeStreamRender 1 d]) as ->.
    { destruct d; simpl; by rewrite Hl. }
    apply Forall_app. split; [|by repeat constructor].
    eapply Forall_impl; [exact Hlk|]. by intros e [He _]. }
  assert (renderPromise w1 = Some 1) as Hrp by (rewrite Hw1; by destruct d).
  assert (dispatches_consistent w1) as (Hq & _ & _).
  { unfold connectedCallback in Hcc.
    destruct (render fuel _) as [[w' p]|] eqn:Hr; [|done]. injection Hcc as <-.
    apply render_dispatches_consistent in Hr; [done|].
    unfold dispatches_consistent. simpl.
    split_and!; intros; by exfalso; eapply elem_of_nil. }
  split_and!; [|split|done].
  - unfold rendered_state. split_and!.
    + by rewrite Hrp.
    + clear -Hd. induction Hd as [|e l He _ IH]; [done|]. simpl. by rewrite He, IH.
    + done.
    + intros p a Hin. rewrite Forall_forall in Hd. by apply Hd in Hin.
  - by rewrite Hrp.
  - rewrite (dispatches_no_action _ Hd). unfold queue_matches_log in Hqm. simpl. lia.
Qed.

(** X12.  Whatever the listeners do, once [connectedCallback] has got to its
    await, under every schedule of animation frames, microtask checkpoints
    and further calls of [render]: each handler call belongs to an activation
    whose dispatch went uncanceled, and the handler calls never outnumber the
    uncanceled dispatches. *)
Theorem handler_calls_follow_dispatches
    (attrs : gmap string string) (child : option Child) (html : string)
    (ls : list Listener) (actions : gmap string Handler) (doc_ids : gset string)
    (rm_throws : bool) (fuel : nat) (w1 : World) (fuel' : nat) (ss : list Step) :
  connectedCallback fuel (createElement attrs child html ls actions doc_ids rm_throws)
    = Some w1 →
  ∃ wf, run fuel' ss w1 = Some wf
    ∧ List.filter is_dispatch (log wf) = log w1
    ∧ (∀ p a, ActionInvoked p a ∈ log wf → BeforeStreamRender p false ∈ log w1)
    ∧ length (List.filter is_action (log wf))
      ≤ length (List.filter is_uncanceled (log w1)).
Proof.
  intros Hcc.
  destruct (connectedCallback_rendered _ _ _ _ _ _ _ _ _ Hcc) as (Hst & Hb & _).
  destruct (rendered_state_run _ fuel' ss _ Hst) as (wf & Hrun & _ & Hds & _ & Ha).
  destruct (acts_bounded_run _ fuel' ss _ Hb) as (wf' & Hrun' & _ & Hn).
  rewrite Hrun in Hrun'. injection Hrun' as <-.
  exists wf. split_and!; [done | done | done | lia].
Qed.

Lemma handler_calls_follow_dispatches_witness :
  ∃ w1 wf,
    connectedCallback 2 (sample_element [rendering_listener]) = Some w1
    ∧ run 0 [AnimationFrame; Microtasks; CallRender; AnimationFrame] w1 = Some wf
    ∧ length (List.filter is_action (log wf))
      ≤ length (List.filter is_uncanceled (log w1)).
Proof.
  destruct (connectedCallback 2 (sample_element [rendering_listener])) as [w1|] eqn:Hcc;
    [|vm_compute in Hcc; discriminate Hcc].
  destruct (handler_calls_follow_dispatches sample_attributes (Some (Template "Hi"))
              sample_html [rendering_listener] sample_actions {[ "messages" ]} false
              2 w1 0 [AnimationFrame; Microtasks; CallRender; AnimationFrame] Hcc)
    as (wf & Hrun & _ & _ & Hn).
  exists w1, wf. split_and!; [reflexivity | exact Hrun | exact Hn].
Defined.

(** X13.  When no listener calls [render], rendering is idempotent: after
    the attachment, under every schedule and however often [render] is called
    again, there has been one dispatch, the handler was called at most once,
    and every call of [render] returns the promise of the first and changes
    nothing. *)
Theorem render_is_idempotent_without_reentry
    (attrs : gmap string string) (child : option Child) (html : string)
    (ls : list Listener) (actions : gmap string Handler) (doc_ids : gset string)
    (rm_throws : bool) (fuel : nat) (ss : list Step) :
  let w0 := createElement attrs child html ls actions doc_ids rm_throws in
  Forall non_reentrant ls → NoDup (listener_id <$> ls) →
  ∃ w1 wf,
    connectedCallback 1 w0 = Some w1
    ∧ run fuel ss w1 = Some wf
    ∧ List.filter is_dispatch (log wf)
      = [BeforeStreamRender 1 (bool_decide (Exists cancels ls))]
    ∧ length (List.filter is_action (log wf)) ≤ 1
    ∧ ∀ fuel', render fuel' wf = Some (wf, 1).
Proof.
  intros w0 Hnr Hnd.
  destruct (connectedCallback_non_reentrant attrs child html ls actions doc_ids
              rm_throws 0 Hnr Hnd) as (ls' & Hcc).
  set (d := bool_decide (Exists cancels ls)) in *.
  set (w1 := set_awaiting _ _) in Hcc.
  assert (log w1 = [BeforeStreamRender 1 d]) as Hlog
    by (unfold w1; by destruct d).
  destruct (connectedCallback_rendered _ _ _ _ _ _ _ _ _ Hcc) as (Hst & Hb & Hrp).
  destruct (rendered_state_run _ fuel ss _ Hst) as (wf & Hrun & _ & Hds & _ & _).
  destruct (acts_bounded_run _ fuel ss _ Hb) as (wf' & Hrun' & _ & Hn).
  rewrite Hrun in Hrun'. injection Hrun' as <-.
  rewrite Hlog in Hds, Hn.
  exists w1, wf. split_and!; [exact Hcc | exact Hrun | exact Hds | |].
  - assert (length (List.filter is_uncanceled [BeforeStreamRender 1 d]) ≤ 1)
      by (destruct d; simpl; lia).
    lia.
  - intros fuel'. apply render_cached. by eapply run_keeps_renderPromise.
Qed.

Lemma render_is_idempotent_without_reentry_witness :
  ∃ w1 wf,
    connectedCallback 1 (sample_element [canceling_listener]) = Some w1
    ∧ run 0 [CallRender; AnimationFrame; CallRender] w1 = Some wf
    ∧ List.filter is_dispatch (log wf) = [BeforeStreamRender 1 true].
Proof.
  destruct (render_is_idempotent_without_reentry sample_attributes
              (Some (Template "Hi")) sample_html [canceling_listener] sample_actions
              {[ "messages" ]} false 0 [CallRender; AnimationFrame; CallRender])
    as (w1 & wf & Hcc & Hrun & Hds & _).
  { apply (bool_decide_unpack _). vm_compute. exact I. }
  { apply (bool_decide_unpack _). vm_compute. exact I. }
  exists w1, wf. split_and!; [exact Hcc | exact Hrun | exact Hds].
Defined.


(** ** The whole attachment, when no listener calls [render] *)

Lemma action_calls_nil w : action_calls w [] = [].
Proof. unfold action_calls. by destruct (performAction w). Qed.

(** X11.  When no listener calls [render], an attachment run to completion
    leaves this log and nothing more: the dispatch; then, unless a listener
    canceled it, the handler call if action resolution found a handler and
    the console report if resolution or the handler raised; then the call of
    [remove].  Each step happens once, in this order. *)
Theorem attachment_trace
    (attrs : gmap string string) (child : option Child) (html : string)
    (ls : list Listener) (actions : gmap string Handler) (doc_ids : gset string)
    (rm_throws : bool) :
  let w0 := createElement attrs child html ls actions doc_ids rm_throws in
  let d := bool_decide (Exists cancels ls) in
  Forall non_reentrant ls → NoDup (listener_id <$> ls) →
  ∃ w1, connectedCallback 1 w0 = Some w1
    ∧ log (run_to_completion w1) =
        BeforeStreamRender 1 d :: (if d then [] else action_trace w0) ++ [RemoveCalled].
Proof.
  intros w0 d Hnr Hnd.
  destruct (connectedCallback_non_reentrant attrs child html ls actions doc_ids
              rm_throws 0 Hnr Hnd) as (ls' & Hcc).
  fold w0 in Hcc. fold d in Hcc.
  eexists. split; [exact Hcc|].
  unfold run_to_completion. destruct d.
  - simpl negb. unfold after_dispatch.
    set (w1 := set_awaiting _ _).
    rewrite (microtasks_single w1 (1, 0)) by reflexivity.
    unfold resume_connectedCallback. cbn [fst snd].
    change (promises (set_awaiting [] w1) !! 1) with (Some Fulfilled).
    cbv iota beta.
    rewrite disconnect_spec, animationFrame_spec.
    rewrite microtasks_idle by reflexivity.
    set (w2 := settle 0 _ _).
    change (frame_queue w2) with (@nil nat). rewrite action_calls_nil.
    reflexivity.
  - simpl negb. unfold after_dispatch.
    set (w1 := set_awaiting _ _).
    assert (microtasks w1 = w1) as -> by reflexivity.
    rewrite animationFrame_spec.
    assert (same_element w0 w1) as Hs1 by done.
    rewrite (action_result_same _ _ Hs1), (action_calls_same _ _ _ Hs1).
    change (frame_queue w1) with [1].
    set (w2 := set_log _ _).
    rewrite (microtasks_single w2 (1, 0)) by reflexivity.
    unfold resume_connectedCallback. cbn [fst snd].
    change (promises (set_awaiting [] w2) !! 1)
      with (Some (outcome (action_result w0))).
    unfold action_trace. subst w2. unfold action_result, action_calls.
    destruct (performAction w0) as [h|e].
    + destruct (run_handler h w0) as [[]|e]; cbn [outcome];
        rewrite disconnect_spec; reflexivity.
    + cbn [outcome]. rewrite disconnect_spec. reflexivity.
Qed.

Lemma attachment_trace_witness :
  ∃ w1, connectedCallback 1 (sample_element []) = Some w1
    ∧ log (run_to_completion w1) =
        [BeforeStreamRender 1 false; ActionInvoked 1 "append"; RemoveCalled].
Proof.
  destruct (attachment_trace sample_attributes (Some (Template "Hi")) sample_html []
              sample_actions {[ "messages" ]} false) as (w1 & Hcc & Hlog).
  { constructor. }
  { constructor. }
  exists w1. split; [exact Hcc | exact Hlog].
Defined.

(** ** [render] without an attachment *)

Lemma unattached_state_step fuel s w :
  unattached_state w → ∃ w', step fuel s w = Some w' ∧ unattached_state w'.
Proof.
  intros (Ha & Hrp & Hc & Hl). destruct s; simpl.
  - destruct (renderPromise w) as [p|] eqn:E; [|done].
    exists w. rewrite (render_cached _ _ p E). split; [done|].
    unfold unattached_state. by rewrite E.
  - exists (animationFrame w). split; [done|]. rewrite animationFrame_spec.
    unfold unattached_state. simpl. split_and!; try done.
    by rewrite List.filter_app, Hl, action_calls_no_cleanup.
  - exists (microtasks w). split; [done|]. by rewrite microtasks_idle.
Qed.

Lemma unattached_state_run fuel ss w :
  unattached_state w → ∃ w', run fuel ss w = Some w' ∧ unattached_state w'.
Proof.
  revert w. induction ss as [|s ss IH]; intros w H; [by exists w|].
  simpl. destruct (unattached_state_step fuel s w H) as (w1 & -> & H1). by apply IH.
Qed.

(** X15.  [render] neither reports nor removes: when [render] is called on a
    new element that no [connectedCallback] is waiting on, whatever the
    listeners do and under every schedule of animation frames, microtask
    checkpoints and further calls of [render], nothing is reported on the
    console, also when the handler raises, [remove] is not called, and the
    element stays in the document. *)
Theorem render_alone_never_cleans_up
    (attrs : gmap string string) (child : option Child) (html : string)
    (ls : list Listener) (actions : gmap string Handler) (doc_ids : gset string)
    (rm_throws : bool) (fuel : nat) (w1 : World) (p : nat) (fuel' : nat)
    (ss : list Step) :
  render fuel (createElement attrs child html ls actions doc_ids rm_throws)
    = Some (w1, p) →
  ∃ wf, run fuel' ss w1 = Some wf
    ∧ renderPromise wf = Some 0
    ∧ isConnected wf = true
    ∧ (∀ e, ConsoleError e ∉ log wf)
    ∧ (RemoveCalled ∉ log wf).
Proof.
  intros Hr.
  assert (renderPromise (createElement attrs child html ls actions doc_ids rm_throws)
          = None) as Hnone by done.
  destruct (render_first _ _ _ _ Hnone Hr) as (-> & wa & d & Hre & ->).
  destruct Hre as (_ & Hconn & Haw & _ & _ & _ & (l & Hl & Hlk) & _).
  simpl in Hconn, Haw, Hl.
  set (w1 := set_renderPromise _ _) in *.
  assert (unattached_state w1) as Hst.
  { unfold unattached_state, w1.
    destruct d; simpl; rewrite Hl; split_and!; try done.
    - rewrite List.filter_app. simpl. rewrite app_nil_r.
      apply dispatches_no_cleanup. eapply Forall_impl; [exact Hlk|]. by intros e [He _].
    - rewrite List.filter_app. simpl. rewrite app_nil_r.
      apply dispatches_no_cleanup. eapply Forall_impl; [exact Hlk|]. by intros e [He _]. }
  destruct (unattached_state_run fuel' ss w1 Hst) as (wf & Hrun & _ & _ & Hc & Hcl).
  exists wf. split; [exact Hrun|].
  split; [by apply (run_keeps_renderPromise fuel' ss w1)|].
  split; [exact Hc|].
  assert (∀ e, is_cleanup e = true → e ∉ log wf) as Hno.
  { intros e He Hin. apply list_elem_of_In in Hin.
    assert (List.In e (List.filter is_cleanup (log wf))) as H
      by (by apply List.filter_In).
    by rewrite Hcl in H. }
  split; [intros e|]; by apply Hno.
Qed.

Lemma render_alone_never_cleans_up_witness :
  ∃ w1 wf,
    render 1 (div_child_element []) = Some (w1, 0)
    ∧ run 1 [AnimationFrame; Microtasks] w1 = Some wf
    ∧ promises wf !! 0 = Some (Rejected (template_error w1))
    ∧ isConnected wf = true
    ∧ (∀ e, ConsoleError e ∉ log wf)
    ∧ (RemoveCalled ∉ log wf).
Proof.
  destruct (render 1 (div_child_element [])) as [[w1 p]|] eqn:Hr;
    [|vm_compute in Hr; discriminate Hr].
  destruct (render_alone_never_cleans_up sample_attributes (Some (Other "div"))
              sample_html [] sample_actions {[ "messages" ]} false 1 w1 p 1
              [AnimationFrame; Microtasks] Hr) as (wf & Hrun & _ & Hc & Hce & Hrm).
  assert (p = 0 ∧ promises wf !! 0 = Some (Rejected (template_error w1))) as [-> Hrej].
  { vm_compute in Hr. injection Hr as <- <-.
    vm_compute in Hrun. injection Hrun as <-. split; vm_compute; reflexivity. }
  exists w1, wf. split_and!; [reflexivity | exact Hrun | exact Hrej | exact Hc | exact Hce | exact Hrm].
Defined.

(** ** A second attachment *)

(** X16.  An element that has rendered does not render again when it is
    attached again: [connectedCallback] finds the stored promise, so there is
    no new dispatch, no new activation and no handler call, with or without
    fuel for listeners; once that promise is settled, the next checkpoint
    reports its error again, if it was rejected, and calls [remove] again;
    while it is pending the attachment stays suspended. *)
Theorem reattachment_does_not_render_again
    (w : World) (p : nat) (st : PromiseState) (fuel : nat) :
  renderPromise w = Some p → awaiting w = [] → promises w !! p = Some st →
  ∃ w1, connectedCallback fuel w = Some w1
    ∧ log w1 = log w ∧ frame_queue w1 = frame_queue w
    ∧ listeners w1 = listeners w
    ∧ match st with
      | Pending => microtasks w1 = w1
      | Fulfilled =>
          log (microtasks w1) = log w ++ [RemoveCalled]
          ∧ promises (microtasks w1) !! length (promises w) = Some Fulfilled
      | Rejected error =>
          log (microtasks w1) = log w ++ [ConsoleError error; RemoveCalled]
          ∧ promises (microtasks w1) !! length (promises w) = Some Fulfilled
      end.
Proof.
  intros Hp Haw Hst. unfold connectedCallback.
  rewrite (render_cached fuel (new_promise w) p) by done.
  eexists. split; [reflexivity|]. simpl. rewrite Haw. simpl.
  split_and!; try done.
  set (w1 := set_awaiting _ _).
  rewrite (microtasks_single w1 (p, length (promises w))) by reflexivity.
  unfold resume_connectedCallback. cbn [fst snd].
  assert (promises (set_awaiting [] w1) !! p = Some st) as ->.
  { simpl. by apply lookup_app_l_Some. }
  destruct st as [| |error].
  - simpl. unfold w1, set_awaiting. simpl. done.
  - rewrite disconnect_spec. simpl. split; [done|].
    apply list_lookup_insert_eq. rewrite length_app. simpl. lia.
  - rewrite disconnect_spec. simpl. split; [by rewrite <- app_assoc|].
    apply list_lookup_insert_eq. rewrite length_app. simpl. lia.
Qed.

Lemma reattachment_does_not_render_again_witness :
  ∃ w1, connectedCallback 0 rejected_element = Some w1
    ∧ log w1 = log rejected_element
    ∧ log (microtasks w1) =
        log rejected_element
        ++ [ConsoleError (template_error rejected_element); RemoveCalled].
Proof.
  destruct (reattachment_does_not_render_again rejected_element 1
              (Rejected (template_error rejected_element)) 0)
    as (w1 & Hcc & Hlog & _ & _ & Hm & _); [vm_compute; reflexivity..|].
  exists w1. split_and!; [exact Hcc | exact Hlog | exact Hm].
Defined.


(** ** A listener that cancels the event and renders *)

(** C3, at a listener registered once that cancels the event and then calls
    [event.target.render()]: the dispatch of the attachment's render
    (activation 1) is canceled, so that render skips the action and
    [connectedCallback] removes the element; but the call made by the
    listener found no stored promise and started activation 2, whose dispatch
    no listener cancels, and at the animation frame the handler is called,
    on an element that is out of the document already.  This is the defect of
    C1: [renderPromise] is stored only after the listeners have run. *)
Theorem canceled_dispatch_yet_handler_called :
  let w0 := sample_element [canceling_rendering_listener] in
  ∃ w1, connectedCallback 2 w0 = Some w1
    ∧ log w1 = [BeforeStreamRender 2 false; BeforeStreamRender 1 true]
    ∧ promises w1 !! 1 = Some Fulfilled
    ∧ log (run_to_completion w1) =
        [BeforeStreamRender 2 false; BeforeStreamRender 1 true;
         RemoveCalled; ActionInvoked 2 "append"]
    ∧ isConnected (run_to_completion w1) = false.
Proof. eexists. split; [vm_compute; reflexivity|]. vm_compute. done. Qed.

End StreamMore.
